(** * Silo transaction core (txn.h): version cells, TIDs, key ranges.

    A shallow embedding of the parts of [txn.h] that the specification
    talks about: the header word of a [logical_node] and its bit
    operations, the version chain and its optimistic read, the write
    path with its spill, the TID layout of protocol 2, the absent-range
    type [key_range_t] and the transaction state machine with the
    operations that begin with [ensure_active].

    Conventions.
    - [uint64_t] values are integers in [0, 2^64); every operation that
      can leave the range is followed by its wrap-around.
    - The model is sequential: a re-read of the volatile [hdr] yields the
      value currently stored, no other thread interferes.
    - Spin loops and the recursion along [next] take fuel; running out of
      fuel is the outcome [Failed OutOfFuel] and stands for a call that
      does not return.
    - [INVARIANT(e)] is a debug assertion: it is checked when the build
      flag [CHECK_INVARIANTS] is set and is a no-op otherwise. *)

From stdpp Require Import gmap strings.
From Stdlib Require Import ZArith Lia Bool List.
From Stdlib Require Import Init.Byte.

Local Open Scope Z_scope.

(* ===================================================================== *)
(** * Part I: the model                                                   *)
(* ===================================================================== *)

(** ** Outcomes of a call *)

Inductive failure : Type :=
| InvariantViolated   (* an INVARIANT fired (CHECK_INVARIANTS builds) *)
| OutOfFuel           (* a spin loop or a chain walk did not finish *)
| BadPointer.         (* a pointer that is not allocated was followed *)

Inductive result (A : Type) : Type :=
| Ok (a : A)
| Failed (why : failure).

Arguments Ok {A} a.
Arguments Failed {A} why.

#[global] Instance result_ret : MRet result := fun A a => Ok a.
#[global] Instance result_bind : MBind result := fun A B k m =>
  match m with
  | Ok a => k a
  | Failed w => Failed w
  end.

(** ** 64-bit and 32-bit unsigned arithmetic *)

Definition version_t := Z.
Definition tid_t := Z.
Definition size_type := Z.

Definition wrap64 (x : Z) : Z := x mod 2 ^ 64.
Definition wrap32 (x : Z) : Z := x mod 2 ^ 32.
Definition uint64 (x : Z) : Prop := 0 <= x < 2 ^ 64.

Definition UINT64_MAX : Z := 2 ^ 64 - 1.
Definition not64 (x : Z) : Z := Z.land (Z.lnot x) UINT64_MAX.
Definition shl64 (x n : Z) : Z := wrap64 (Z.shiftl x n).
Definition shr64 (x n : Z) : Z := Z.shiftr x n.
Definition add64 (x y : Z) : Z := wrap64 (x + y).
Definition sub64 (x y : Z) : Z := wrap64 (x - y).

(** Conversion of an integer to [bool], as in [return v & MASK;]. *)
Definition to_bool (x : Z) : bool := negb (x =? 0).

Definition MIN_TID : tid_t := 0.
Definition MAX_TID : tid_t := UINT64_MAX.

(** ** The header word of a logical_node *)

Definition HDR_LOCKED_MASK : version_t := 1.
Definition HDR_DELETING_SHIFT : Z := 1.
Definition HDR_DELETING_MASK : version_t := Z.shiftl 1 HDR_DELETING_SHIFT.
Definition HDR_ENQUEUED_SHIFT : Z := 2.
Definition HDR_ENQUEUED_MASK : version_t := Z.shiftl 1 HDR_ENQUEUED_SHIFT.
Definition HDR_LATEST_SHIFT : Z := 3.
Definition HDR_LATEST_MASK : version_t := Z.shiftl 1 HDR_LATEST_SHIFT.
Definition HDR_VERSION_SHIFT : Z := 4.
Definition HDR_VERSION_MASK : version_t := shl64 UINT64_MAX HDR_VERSION_SHIFT.

Definition IsLocked (v : version_t) : bool := to_bool (Z.land v HDR_LOCKED_MASK).
Definition IsDeleting (v : version_t) : bool := to_bool (Z.land v HDR_DELETING_MASK).
Definition IsEnqueued (v : version_t) : bool := to_bool (Z.land v HDR_ENQUEUED_MASK).
Definition IsLatest (v : version_t) : bool := to_bool (Z.land v HDR_LATEST_MASK).

Definition Version (v : version_t) : version_t :=
  shr64 (Z.land v HDR_VERSION_MASK) HDR_VERSION_SHIFT.

Section HeaderOps.

  (** The build flag that turns [INVARIANT] into a checked assertion. *)
Variable CHECK_INVARIANTS : bool.

Definition INVARIANT (e : bool) : result unit :=
    if CHECK_INVARIANTS then (if e then Ok tt else Failed InvariantViolated)
    else Ok tt.

  (** [lock()]: spin until [hdr] is observed unlocked and the CAS that sets
      LOCKED succeeds. Without interference the CAS on the value just read
      succeeds, and a locked header stays locked. *)
Fixpoint lock (fuel : nat) (hdr : version_t) : result version_t :=
    match fuel with
    | O => Failed OutOfFuel
    | S fuel' =>
        let v := hdr in
        if IsLocked v then lock fuel' hdr
        else Ok (Z.lor v HDR_LOCKED_MASK)
    end.

Definition unlock (hdr : version_t) : result version_t :=
    let v := hdr in
    INVARIANT (IsLocked v) ;;
    let n := Version v in
    let v := Z.land v (not64 HDR_VERSION_MASK) in
    let v := Z.lor v (Z.land (shl64 (add64 n 1) HDR_VERSION_SHIFT) HDR_VERSION_MASK) in
    let v := Z.land v (not64 HDR_LOCKED_MASK) in
    INVARIANT (negb (IsLocked v)) ;;
    Ok v.

Definition mark_deleting (hdr : version_t) : result version_t :=
    INVARIANT (IsLocked hdr) ;;
    INVARIANT (negb (IsEnqueued hdr)) ;;
    INVARIANT (negb (IsDeleting hdr)) ;;
    Ok (Z.lor hdr HDR_DELETING_MASK).

Definition set_enqueued (enqueued : bool) (hdr : version_t) : result version_t :=
    INVARIANT (IsLocked hdr) ;;
    INVARIANT (negb (IsDeleting hdr)) ;;
    if enqueued then Ok (Z.lor hdr HDR_ENQUEUED_MASK)
    else Ok (Z.land hdr (not64 HDR_ENQUEUED_MASK)).

Definition set_latest (latest : bool) (hdr : version_t) : result version_t :=
    INVARIANT (IsLocked hdr) ;;
    if latest then Ok (Z.lor hdr HDR_LATEST_MASK)
    else Ok (Z.land hdr (not64 HDR_LATEST_MASK)).

End HeaderOps.

(** The word that [unlock] stores in [hdr]. *)
Definition unlock_word (v : version_t) : version_t :=
  Z.land
    (Z.lor (Z.land v (not64 HDR_VERSION_MASK))
       (Z.land (shl64 (add64 (Version v) 1) HDR_VERSION_SHIFT) HDR_VERSION_MASK))
    (not64 HDR_LOCKED_MASK).

(** [stable_version()]: spin until [hdr] is observed unlocked. *)
Fixpoint stable_version (fuel : nat) (hdr : version_t) : result version_t :=
  match fuel with
  | O => Failed OutOfFuel
  | S fuel' =>
      let v := hdr in
      if IsLocked v then stable_version fuel' hdr else Ok v
  end.

(** [try_stable_version(v, spins)]: the bounded variant; returns the flag and
    the value left in the out-parameter [v]. *)
Fixpoint try_stable_version (spins : nat) (hdr : version_t) : bool * version_t :=
  let v := hdr in
  match spins with
  | O => (negb (IsLocked v), v)
  | S spins' =>
      if IsLocked v then try_stable_version spins' hdr
      else (negb (IsLocked v), v)
  end.

Definition unstable_version (hdr : version_t) : version_t := hdr.

Definition check_version (hdr : version_t) (version : version_t) : bool :=
  hdr =? version.

(** ** Protocol 2: the TID layout *)

Section Proto2Layout.

  (** [NMAXCOREBITS] and [NMAXCORES] come from macros.h, which is not part
      of the sources at hand: they are parameters of the layout. *)
Variable CoreBits : Z.
Variable NMaxCores : Z.

Definition CoreMask : Z := wrap64 (NMaxCores - 1).

Definition NumIdShift : Z := CoreBits.
Definition NumIdMask : Z := shl64 (sub64 (shl64 1 27) 1) NumIdShift.

Definition EpochShift : Z := NumIdShift + 27.
Definition EpochMask : Z := shl64 UINT64_MAX EpochShift.

Definition CoreId (v : Z) : Z := Z.land v CoreMask.
Definition NumId (v : Z) : Z := shr64 (Z.land v NumIdMask) NumIdShift.
Definition EpochId (v : Z) : Z := shr64 (Z.land v EpochMask) EpochShift.

Definition MakeTid (core_id num_id epoch_id : Z) : Z :=
    Z.lor (Z.lor core_id (shl64 num_id NumIdShift)) (shl64 epoch_id EpochShift).

  (** The three [_static_assert]s in [MakeTid]: the code compiles only for
      parameters that satisfy them. *)
Definition MakeTid_static_asserts : Prop :=
    Z.lor (Z.lor CoreMask NumIdMask) EpochMask = UINT64_MAX /\
    Z.land CoreMask NumIdMask = 0 /\
    Z.land NumIdMask EpochMask = 0.

  (** What the code and the specification require of the two macros: the
      shifts stay below the word size (a shift by 64 or more is undefined),
      there is at least one core, [2^CoreBits >= NMaxCores], and the static
      assertions hold. *)
Definition proto2_config : Prop :=
    0 <= CoreBits /\ EpochShift < 64 /\
    0 < NMaxCores <= 2 ^ CoreBits /\
    MakeTid_static_asserts.

End Proto2Layout.

(** The parameters for which the layout is the intended one; they are the
    only ones that [proto2_config] admits. *)
Definition proto2_params (CoreBits NMaxCores : Z) : Prop :=
  0 <= CoreBits < 37 /\ NMaxCores = 2 ^ CoreBits.

(** ** The in-place-update predicate of the protocols *)

Inductive transaction : Type :=
| transaction_proto1
| transaction_proto2.

(** [transaction::can_overwrite_record_tid], the base-class body. *)
Definition transaction_can_overwrite_record_tid (prev cur : tid_t) : bool := false.

Section CanOverwrite.

Variable CHECK_INVARIANTS : bool.
Variable CoreBits : Z.
  (** The value of the global [g_last_consistent_epoch] at the call. *)
Variable g_last_consistent_epoch : Z.

  (** [transaction_proto2::can_overwrite_record_tid]. *)
Definition transaction_proto2_can_overwrite_record_tid
      (prev cur : tid_t) : result bool :=
    INVARIANT CHECK_INVARIANTS (prev <? cur) ;;
    INVARIANT CHECK_INVARIANTS (g_last_consistent_epoch <=? EpochId CoreBits cur) ;;
    Ok (EpochId CoreBits prev =? EpochId CoreBits cur).

  (** The virtual call [txn->can_overwrite_record_tid(prev, cur)]:
      [transaction_proto1] does not override the base-class body. *)
Definition can_overwrite_record_tid (txn : transaction)
      (prev cur : tid_t) : result bool :=
    match txn with
    | transaction_proto1 => Ok (transaction_can_overwrite_record_tid prev cur)
    | transaction_proto2 => transaction_proto2_can_overwrite_record_tid prev cur
    end.

End CanOverwrite.

(** ** Version cells and the heap *)

Definition ptr := positive.

Record logical_node : Type := mk_logical_node {
  hdr : version_t;
  next : option ptr;            (* [None] is the null pointer *)
  version : tid_t;
  size : Z;                     (* uint32_t: bytes in use, 0 = absent record *)
  alloc_size : Z;               (* uint32_t: capacity of [value_start] *)
  value_start : list byte       (* the buffer that follows the cell *)
}.

Abbreviation heap := (gmap ptr logical_node).

Definition deref (h : heap) (p : ptr) : result logical_node :=
  match h !! p with
  | Some n => Ok n
  | None => Failed BadPointer
  end.

(** [memcpy(dst, src, n)] on buffers: the first [n] bytes of [dst] are
    replaced by the first [n] bytes of [src]; reading or writing past the
    end of a buffer is undefined. *)
Definition memcpy (dst src : list byte) (n : Z) : result (list byte) :=
  if (0 <=? n) && (n <=? Z.of_nat (length src)) && (n <=? Z.of_nat (length dst))
  then Ok (take (Z.to_nat n) src ++ drop (Z.to_nat n) dst)
  else Failed BadPointer.

(** The bytes of the record held by a cell: [value_start[0 .. size)]. *)
Definition payload (n : logical_node) : list byte :=
  take (Z.to_nat (size n)) (value_start n).

Definition is_locked (n : logical_node) : bool := IsLocked (hdr n).
Definition is_deleting (n : logical_node) : bool := IsDeleting (hdr n).
Definition is_enqueued (n : logical_node) : bool := IsEnqueued (hdr n).
Definition is_latest (n : logical_node) : bool := IsLatest (hdr n).

Definition is_not_behind (n : logical_node) (t : tid_t) : bool :=
  version n <=? t.

(** [record_at(t, start_t, r, require_latest)]. The out-parameters
    [start_t] and [r] are passed in and returned next to the flag. *)
Fixpoint record_at (fuel : nat) (h : heap) (this : ptr) (t : tid_t)
    (start_t : tid_t) (r : list byte) (require_latest : bool)
    : result (bool * tid_t * list byte) :=
  match fuel with
  | O => Failed OutOfFuel
  | S fuel' =>
      n ← deref h this;
      v ← stable_version fuel' (hdr n);
      let p := next n in
      let found := is_not_behind n t in
      if found && (require_latest && negb (IsLatest v)) then
        Ok (false, start_t, r)
      else
        let start_t := if found then version n else start_t in
        let r := if found then payload n else r in
        if negb (check_version (hdr n) v) then
          record_at fuel' h this t start_t r require_latest   (* goto retry *)
        else if found then Ok (true, start_t, r)
        else
          match p with
          | Some p' => record_at fuel' h p' t start_t r false
          | None => Ok (false, start_t, r)
          end
  end.

Definition stable_read (fuel : nat) (h : heap) (this : ptr) (t : tid_t)
    (start_t : tid_t) (r : list byte) : result (bool * tid_t * list byte) :=
  record_at fuel h this t start_t r true.

Definition is_latest_version (n : logical_node) (t : tid_t) : bool :=
  is_latest n && is_not_behind n t.

Definition stable_is_latest_version (n : logical_node) (t : tid_t) : bool :=
  let '(ok, v) := try_stable_version 16 (hdr n) in
  if negb ok then false
  else
    let ret := IsLatest v && is_not_behind n t in
    if ret && check_version (hdr n) v then true else false.

Definition latest_value_is_nil (n : logical_node) : bool :=
  is_latest n && (size n =? 0).

(** ** Allocation and the write path *)

(** [sizeof(logical_node)]: the struct is PACKED and holds [hdr], [next] and
    [version] (8 bytes each) and [size] and [alloc_size] (4 bytes each); the
    flexible array [value_start] adds nothing. *)
Definition sizeof_logical_node : Z := 32.

(** Modelled from the spec: [util::round_up<size_t, 16>] comes from util.h,
    which is not part of the sources at hand; the specification says that
    the capacity of a cell "is rounded up to 16 bytes". *)
Definition round_up (align x : Z) : Z := wrap64 ((x + align - 1) / align * align).

(** Bytes of a fresh allocation that nothing has written yet. *)
Definition uninitialised (n : Z) : list byte := replicate (Z.to_nat n) x00.

Definition set_hdr (n : logical_node) (v : version_t) : logical_node :=
  mk_logical_node v (next n) (version n) (size n) (alloc_size n) (value_start n).

Section WritePath.

Variable CHECK_INVARIANTS : bool.
Variable CoreBits : Z.
Variable g_last_consistent_epoch : Z.

  (** The first constructor: one absent record at [MIN_TID], LATEST set. *)
Definition logical_node_ctor_first (alloc_size : size_type) : logical_node :=
  mk_logical_node HDR_LATEST_MASK None MIN_TID 0 (wrap32 alloc_size)
    (uninitialised alloc_size).

(** The second constructor, run on a fresh buffer of [alloc_size] bytes. *)
Definition logical_node_ctor (version : tid_t) (r : list byte)
      (size alloc_size : size_type) (next : option ptr) (set_latest : bool)
      : result logical_node :=
    INVARIANT CHECK_INVARIANTS (size <=? alloc_size) ;;
    buf ← memcpy (uninitialised alloc_size) r size;
    Ok (mk_logical_node (if set_latest then HDR_LATEST_MASK else 0)
          next version (wrap32 size) (wrap32 alloc_size) buf).

Definition alloc_first (h : heap) (alloc_sz : size_type) : heap * ptr :=
  let actual_alloc_sz := round_up 16 (wrap64 (sizeof_logical_node + alloc_sz)) in
  let p : ptr := fresh (dom h) in
  (<[p := logical_node_ctor_first (sub64 actual_alloc_sz sizeof_logical_node)]> h, p).

(** [alloc(version, value, sz, next, set_latest)]: [malloc] hands out an
      address that is not in use. *)
Definition alloc (h : heap) (version : tid_t) (value : list byte)
      (sz : size_type) (next : option ptr) (set_latest : bool)
      : result (heap * ptr) :=
    let alloc_sz := round_up 16 (wrap64 (sizeof_logical_node + sz)) in
    let p : ptr := fresh (dom h) in
    n ← logical_node_ctor version value sz
          (sub64 alloc_sz sizeof_logical_node) next set_latest;
    Ok (<[p := n]> h, p).

  (** [write_record_at(txn, t, r, sz)] on the cell at [this]; returns the
      heap and the pair (growth, replacement). *)
Definition write_record_at (h : heap) (this : ptr) (txn : transaction)
      (t : tid_t) (r : list byte) (sz : size_type)
      : result (heap * (bool * option ptr)) :=
    n ← deref h this;
    INVARIANT CHECK_INVARIANTS (is_locked n) ;;
    INVARIANT CHECK_INVARIANTS (is_latest n) ;;
    overwrite ← can_overwrite_record_tid CHECK_INVARIANTS CoreBits
                  g_last_consistent_epoch txn (version n) t;
    if overwrite : bool then
      if sz <=? alloc_size n then
        (* directly update in place *)
        buf ← memcpy (value_start n) r sz;
        Ok (<[this := mk_logical_node (hdr n) (next n) t (wrap32 sz)
                        (alloc_size n) buf]> h, (false, None))
      else
        (* need to replace this record *)
        hdr' ← set_latest CHECK_INVARIANTS false (hdr n);
        let h := <[this := set_hdr n hdr']> h in
        '(h, rep) ← alloc h t r sz (next n) true;
        repn ← deref h rep;
        INVARIANT CHECK_INVARIANTS (is_latest repn) ;;
        Ok (h, (false, Some rep))
    else
      (* need to spill *)
      if sz <=? alloc_size n then
        '(h, spill) ← alloc h (version n) (value_start n) sz (next n) false;
        spilln ← deref h spill;
        INVARIANT CHECK_INVARIANTS (negb (is_latest spilln)) ;;
        buf ← memcpy (value_start n) r sz;
        Ok (<[this := mk_logical_node (hdr n) (Some spill) t (wrap32 sz)
                        (alloc_size n) buf]> h, (true, None))
      else
        hdr' ← set_latest CHECK_INVARIANTS false (hdr n);
        let h := <[this := set_hdr n hdr']> h in
        '(h, rep) ← alloc h t r sz (Some this) true;
        repn ← deref h rep;
        INVARIANT CHECK_INVARIANTS (is_latest repn) ;;
        Ok (h, (true, Some rep)).

End WritePath.

(** The capacity [alloc] gives to a cell that is to hold [sz] bytes. *)
Definition alloc_capacity (sz : Z) : Z :=
  sub64 (round_up 16 (wrap64 (sizeof_logical_node + sz))) sizeof_logical_node.

(** The cell that the spill branch of [write_record_at] allocates when it
    runs on the cell [n] for a write of [sz] bytes. *)
Definition spilled (n : logical_node) (sz : Z) : logical_node :=
  mk_logical_node 0 (next n) (version n) (wrap32 sz) (wrap32 (alloc_capacity sz))
    (take (Z.to_nat sz) (value_start n)
       ++ drop (Z.to_nat sz) (uninitialised (alloc_capacity sz))).

(** ** Chains *)

(** [chain h p ns]: following [next] from [p] visits the cells [ns] in this
    order and ends at the null pointer. *)
Inductive chain (h : heap) : option ptr -> list logical_node -> Prop :=
| chain_null : chain h None []
| chain_cell p n ns :
    h !! p = Some n -> chain h (next n) ns -> chain h (Some p) (n :: ns).

Definition unlocked (ns : list logical_node) : Prop :=
  Forall (fun n => is_locked n = false) ns.

(** The read as the specification describes it, on the list of cells of a
    chain: the first cell with [tid <= t] decides; it must carry LATEST
    while [require_latest] is in force, which is the case for the entry
    cell only. *)
Fixpoint read_cells (ns : list logical_node) (t start_t : tid_t) (r : list byte)
    (require_latest : bool) : bool * tid_t * list byte :=
  match ns with
  | [] => (false, start_t, r)
  | n :: ns' =>
      if version n <=? t then
        if require_latest && negb (is_latest n) then (false, start_t, r)
        else (true, version n, payload n)
      else read_cells ns' t start_t r false
  end.

(** A cell whose buffer has [alloc_size] bytes of which [size] are in use. *)
Definition node_wf (n : logical_node) : Prop :=
  Z.of_nat (length (value_start n)) = alloc_size n /\
  0 <= size n <= alloc_size n /\ alloc_size n < 2 ^ 32.

(** ** Header-bit operations as a small language *)

Inductive hdr_op : Type :=
| op_lock
| op_unlock
| op_mark_deleting
| op_set_enqueued (enqueued : bool)
| op_set_latest (latest : bool).

Definition hdr_step (CHECK_INVARIANTS : bool) (fuel : nat) (op : hdr_op)
    (hdr : version_t) : result version_t :=
  match op with
  | op_lock => lock fuel hdr
  | op_unlock => unlock CHECK_INVARIANTS hdr
  | op_mark_deleting => mark_deleting CHECK_INVARIANTS hdr
  | op_set_enqueued e => set_enqueued CHECK_INVARIANTS e hdr
  | op_set_latest l => set_latest CHECK_INVARIANTS l hdr
  end.

(** The precondition an operation states through its INVARIANTs. *)
Definition hdr_pre (op : hdr_op) (hdr : version_t) : bool :=
  match op with
  | op_lock => true
  | op_unlock => IsLocked hdr
  | op_mark_deleting => IsLocked hdr && negb (IsEnqueued hdr) && negb (IsDeleting hdr)
  | op_set_enqueued _ => IsLocked hdr && negb (IsDeleting hdr)
  | op_set_latest _ => IsLocked hdr
  end.

(** [hdr_run ops h h']: the calls [ops], each made in a state that meets
    its precondition, take the header from [h] to [h']. *)
Inductive hdr_run (CHECK_INVARIANTS : bool) (fuel : nat)
    : list hdr_op -> version_t -> version_t -> Prop :=
| hdr_run_nil h : hdr_run CHECK_INVARIANTS fuel [] h h
| hdr_run_cons op ops h h' h'' :
    hdr_pre op h = true ->
    hdr_step CHECK_INVARIANTS fuel op h = Ok h' ->
    hdr_run CHECK_INVARIANTS fuel ops h' h'' ->
    hdr_run CHECK_INVARIANTS fuel (op :: ops) h h''.

(** The header a constructor leaves: LATEST set (first constructor, or
    [set_latest] true) or the zero word. *)
Definition fresh_hdr (set_latest : bool) : version_t :=
  if set_latest then HDR_LATEST_MASK else 0.

Definition hdr_exclusive (hdr : version_t) : Prop :=
  ~ (IsDeleting hdr = true /\ IsEnqueued hdr = true).

(** ** Absent ranges: key_range_t *)

Module key_range.

  (** Comparison of [std::string]: lexicographic on the bytes, a proper
      prefix is smaller. *)
Definition string_lt (s1 s2 : string) : bool := String.ltb s1 s2.
Definition string_le (s1 s2 : string) : bool := String.leb s1 s2.
Definition string_gt (s1 s2 : string) : bool := string_lt s2 s1.
Definition string_ge (s1 s2 : string) : bool := string_le s2 s1.

  (** The range [a, b), or [a, +infinity) when [has_b] is false. *)
Record key_range_t : Type := mk_key_range_t {
    a : string;
    has_b : bool;
    b : string
  }.

  (** The default constructor and the two most used ones. *)
Definition key_range_default : key_range_t :=
    mk_key_range_t EmptyString true EmptyString.
Definition key_range_from (a : string) : key_range_t :=
    mk_key_range_t a false EmptyString.
Definition key_range_between (a b : string) : key_range_t :=
    mk_key_range_t a true b.

Definition is_empty_range (this : key_range_t) : bool :=
    has_b this && string_ge (a this) (b this).

Definition contains (this that : key_range_t) : bool :=
    if string_gt (a this) (a that) then false
    else if negb (has_b this) then true
    else if negb (has_b that) then false
    else string_ge (b this) (b that).

Section KeyInRange.

    (** [varkey] (varkey.h) is not part of the sources at hand: the key
        type, its constructor from a string and its two comparisons are
        parameters. *)
Variable varkey : Type.
Variable varkey_of : string -> varkey.
Variable varkey_le : varkey -> varkey -> bool.
Variable varkey_lt : varkey -> varkey -> bool.

Definition key_in_range (this : key_range_t) (k : varkey) : bool :=
      varkey_le (varkey_of (a this)) k &&
      (negb (has_b this) || varkey_lt k (varkey_of (b this))).

Definition key_range_search_less_cmp (k : varkey) (range : key_range_t) : bool :=
      negb (has_b range) || varkey_lt k (varkey_of (b range)).

End KeyInRange.

End key_range.

(** ** The transaction state machine *)

Inductive txn_state : Type := TXN_EMBRYO | TXN_ACTIVE | TXN_COMMITED | TXN_ABRT.

Inductive abort_reason : Type :=
| ABORT_REASON_USER
| ABORT_REASON_UNSTABLE_READ
| ABORT_REASON_FUTURE_TID_READ
| ABORT_REASON_NODE_SCAN_WRITE_VERSION_CHANGED
| ABORT_REASON_NODE_SCAN_READ_VERSION_CHANGED
| ABORT_REASON_WRITE_NODE_INTERFERENCE
| ABORT_REASON_READ_NODE_INTEREFERENCE
| ABORT_REASON_READ_ABSENCE_INTEREFERENCE.

Inductive exception : Type :=
| transaction_unusable_exception
| transaction_read_only_exception.

Definition TXN_FLAG_LOW_LEVEL_SCAN : Z := 1.

(** The fields of a transaction object that the member functions at hand
    touch ([ctx_map] is left out: none of them reads or writes it). *)
Record txn : Type := mk_txn {
  state : txn_state;
  reason : abort_reason;
  flags : Z
}.

(** How a member function ends: it returns a value or throws. *)
Inductive outcome (A : Type) : Type :=
| Returns (a : A)
| Throws (e : exception).

Arguments Returns {A} a.
Arguments Throws {A} e.

(** A member function of a transaction: the object after the call and the
    way the call ended. *)
Definition method (A : Type) : Type := txn -> txn * outcome A.


Definition txn_state_eqb (s1 s2 : txn_state) : bool :=
  match s1, s2 with
  | TXN_EMBRYO, TXN_EMBRYO | TXN_ACTIVE, TXN_ACTIVE
  | TXN_COMMITED, TXN_COMMITED | TXN_ABRT, TXN_ABRT => true
  | _, _ => false
  end.

Definition set_state (this : txn) (s : txn_state) : txn :=
  mk_txn s (reason this) (flags this).

Definition ensure_active : method unit :=
  fun this =>
    if txn_state_eqb (state this) TXN_EMBRYO then
      (set_state this TXN_ACTIVE, Returns tt)
    else if negb (txn_state_eqb (state this) TXN_ACTIVE) then
      (this, Throws transaction_unusable_exception)
    else (this, Returns tt).

(** A transaction is resolved once it has committed or aborted. *)
Definition resolved (s : txn_state) : Prop := s = TXN_COMMITED \/ s = TXN_ABRT.

(** ** Cells and heaps used as examples *)

(** An unlocked LATEST cell at tid 1. *)
Definition cell_1 : logical_node :=
  mk_logical_node HDR_LATEST_MASK None 1 0 0 [].

(** A chain of two cells: "hi" at tid 7 in front of "old" at tid 3. *)
Definition cell_new : logical_node :=
  mk_logical_node HDR_LATEST_MASK (Some 2%positive) 7 2 16
    ([x68; x69] ++ uninitialised 14).
Definition cell_old : logical_node :=
  mk_logical_node 0 None 3 3 16 ([x6f; x6c; x64] ++ uninitialised 13).
Definition heap_2 : heap := <[1%positive := cell_new]> {[ 2%positive := cell_old ]}.

(** A locked LATEST cell at tid 1 that holds the three bytes "abc". *)
Definition cell_abc : logical_node :=
  mk_logical_node (Z.lor HDR_LATEST_MASK HDR_LOCKED_MASK) None 1 3 16
    ([x61; x62; x63] ++ uninitialised 13).
Definition heap_abc : heap := {[ 1%positive := cell_abc ]}.

(** ** Further member functions *)

Definition stable_latest_value_is_nil (n : logical_node) : bool :=
  let '(ok, v) := try_stable_version 16 (hdr n) in
  if negb ok then false
  else
    let ret := IsLatest v && (size n =? 0) in
    if ret && check_version (hdr n) v then true else false.

(** [transaction::can_read_tid], the base-class body, and the override of
    [transaction_proto2], which reads the member [current_epoch]. *)
Definition transaction_can_read_tid (t : tid_t) : bool := true.

Definition transaction_proto2_can_read_tid (CoreBits current_epoch : Z)
    (t : tid_t) : bool :=
  EpochId CoreBits t <=? current_epoch.

Definition can_read_tid (CoreBits current_epoch : Z) (txn : transaction)
    (t : tid_t) : bool :=
  match txn with
  | transaction_proto1 => transaction_can_read_tid t
  | transaction_proto2 => transaction_proto2_can_read_tid CoreBits current_epoch t
  end.

(** [k] rounds of [lock(); unlock();] on a header. *)
Fixpoint lock_unlock_cycles (CHECK_INVARIANTS : bool) (fuel : nat) (k : nat)
    (hdr : version_t) : result version_t :=
  match k with
  | O => Ok hdr
  | S k' =>
      v ← lock fuel hdr;
      v ← unlock CHECK_INVARIANTS v;
      lock_unlock_cycles CHECK_INVARIANTS fuel k' v
  end.

(** The header operations as member functions of a cell of the heap. *)
Definition node_lock (fuel : nat) (h : heap) (p : ptr) : result heap :=
  n ← deref h p;
  v ← lock fuel (hdr n);
  Ok (<[p := set_hdr n v]> h).

Definition node_unlock (CHECK_INVARIANTS : bool) (h : heap) (p : ptr)
    : result heap :=
  n ← deref h p;
  v ← unlock CHECK_INVARIANTS (hdr n);
  Ok (<[p := set_hdr n v]> h).

Definition node_mark_deleting (CHECK_INVARIANTS : bool) (h : heap) (p : ptr)
    : result heap :=
  n ← deref h p;
  v ← mark_deleting CHECK_INVARIANTS (hdr n);
  Ok (<[p := set_hdr n v]> h).

(** [deleter(p)]: the callback that frees a cell. *)
Definition deleter (CHECK_INVARIANTS : bool) (h : heap) (p : ptr) : result heap :=
  n ← deref h p;
  INVARIANT CHECK_INVARIANTS (is_deleting n) ;;
  INVARIANT CHECK_INVARIANTS (negb (is_locked n)) ;;
  Ok (delete p h).

(** [release_no_rcu(n)]: the three header calls are compiled in only under
    CHECK_INVARIANTS; [free] of a pointer that is not allocated is
    undefined. *)
Definition release_no_rcu (CHECK_INVARIANTS : bool) (fuel : nat) (h : heap)
    (n : option ptr) : result heap :=
  match n with
  | None => Ok h
  | Some p =>
      h ← (if CHECK_INVARIANTS then
             h ← node_lock fuel h p;
             h ← node_mark_deleting CHECK_INVARIANTS h p;
             node_unlock CHECK_INVARIANTS h p
           else Ok h);
      _ ← deref h p;
      Ok (delete p h)
  end.

(** The cell that the two replacing branches of [write_record_at] allocate,
    and the cell they leave in place. *)
Definition replacement (next : option ptr) (t : tid_t) (r : list byte)
    (sz : Z) : logical_node :=
  mk_logical_node HDR_LATEST_MASK next t (wrap32 sz) (wrap32 (alloc_capacity sz))
    (take (Z.to_nat sz) r ++ drop (Z.to_nat sz) (uninitialised (alloc_capacity sz))).

Definition displaced (n : logical_node) : logical_node :=
  set_hdr n (Z.land (hdr n) (not64 HDR_LATEST_MASK)).

(** The cell that is the head of the chain after [write_record_at]: the
    replacement when one is returned, the cell in place otherwise. *)
Definition new_head (this : ptr) (rep : option ptr) : ptr := default this rep.

(** Seventeen bytes: one more than [cell_abc] can hold. *)
Definition bytes_17 : list byte := replicate 17 x78.

(** [AbortReasonStr]: the name of the enumerator. *)
Definition AbortReasonStr (reason : abort_reason) : string :=
  match reason with
  | ABORT_REASON_USER => "ABORT_REASON_USER"
  | ABORT_REASON_UNSTABLE_READ => "ABORT_REASON_UNSTABLE_READ"
  | ABORT_REASON_FUTURE_TID_READ => "ABORT_REASON_FUTURE_TID_READ"
  | ABORT_REASON_NODE_SCAN_WRITE_VERSION_CHANGED =>
      "ABORT_REASON_NODE_SCAN_WRITE_VERSION_CHANGED"
  | ABORT_REASON_NODE_SCAN_READ_VERSION_CHANGED =>
      "ABORT_REASON_NODE_SCAN_READ_VERSION_CHANGED"
  | ABORT_REASON_WRITE_NODE_INTERFERENCE => "ABORT_REASON_WRITE_NODE_INTERFERENCE"
  | ABORT_REASON_READ_NODE_INTEREFERENCE => "ABORT_REASON_READ_NODE_INTEREFERENCE"
  | ABORT_REASON_READ_ABSENCE_INTEREFERENCE =>
      "ABORT_REASON_READ_ABSENCE_INTEREFERENCE"
  end%string.

(** ** What a write leaves behind *)

(** The cell that holds the previous version after a spill: the new cell
    when the record was written in place, the cell in place when a
    replacement was returned. *)
Definition old_version_cell (h : heap) (this : ptr) (rep : option ptr) : ptr :=
  match rep with
  | Some _ => this
  | None => fresh (dom h)
  end.

(** [write_record_at] returns and has added a version: one cell more is
    allocated, the new head carries LATEST, tid [t] and the record, and its
    [next] is a cell that is not LATEST and carries the old tid and the old
    [next]. *)
Definition write_adds_a_version (chk : bool) (CoreBits gle : Z) (h : heap)
    (this : ptr) (n : logical_node) (txn : transaction) (t : tid_t)
    (r : list byte) (sz : Z) : Prop :=
  exists h' rep c o,
    write_record_at chk CoreBits gle h this txn t r sz = Ok (h', (true, rep)) /\
    h !! fresh (dom h) = None /\
    dom h' = {[ fresh (dom h) ]} ∪ dom h /\
    h' !! new_head this rep = Some c /\
    is_latest c = true /\ version c = t /\ size c = sz /\
    payload c = take (Z.to_nat sz) r /\
    next c = Some (old_version_cell h this rep) /\
    old_version_cell h this rep <> new_head this rep /\
    h' !! old_version_cell h this rep = Some o /\
    is_latest o = false /\ version o = version n /\ next o = next n.

(** [write_record_at] returns and has overwritten the record in place: no
    cell is allocated, and [this] carries tid [t] and the record in front
    of the old [next]. *)
Definition write_overwrites_in_place (chk : bool) (CoreBits gle : Z) (h : heap)
    (this : ptr) (n : logical_node) (txn : transaction) (t : tid_t)
    (r : list byte) (sz : Z) : Prop :=
  exists h' c,
    write_record_at chk CoreBits gle h this txn t r sz = Ok (h', (false, None)) /\
    dom h' = dom h /\
    h' !! this = Some c /\
    version c = t /\ size c = sz /\ payload c = take (Z.to_nat sz) r /\
    next c = next n /\ hdr c = hdr n.

(** ** The layout comment of protocol 2 *)

(** The fields as the comment at the head of [transaction_proto2] documents
    them: [ core | number | epoch ] at bits [ 0..10 | 10..27 | 27..64 ]. *)
Module layout_comment.


End layout_comment.

(** ** Operations of a transaction *)















(* ===================================================================== *)
(** * Part II: properties                                                 *)
(* ===================================================================== *)

(** ** Bits of 64-bit words *)

Lemma UINT64_MAX_ones : UINT64_MAX = Z.ones 64.
Proof. reflexivity. Qed.

Lemma testbit_wrap64 x i :
  Z.testbit (wrap64 x) i = (i <? 64) && Z.testbit x i.
Proof. unfold wrap64. apply Z.testbit_mod_pow2. lia. Qed.

Lemma testbit_UINT64_MAX i :
  0 <= i -> Z.testbit UINT64_MAX i = (i <? 64).
Proof.
  intros Hi. rewrite UINT64_MAX_ones.
  destruct (Z.ltb_spec i 64).
  - apply Z.ones_spec_low. lia.
  - apply Z.ones_spec_high. lia.
Qed.

Lemma testbit_not64 x i :
  0 <= i -> Z.testbit (not64 x) i = negb (Z.testbit x i) && (i <? 64).
Proof.
  intros Hi. unfold not64.
  rewrite Z.land_spec, Z.lnot_spec, testbit_UINT64_MAX by lia. reflexivity.
Qed.

Lemma testbit_shl64 x n i :
  0 <= i -> Z.testbit (shl64 x n) i = (i <? 64) && Z.testbit x (i - n).
Proof.
  intros Hi. unfold shl64. rewrite testbit_wrap64, Z.shiftl_spec by lia.
  reflexivity.
Qed.

Lemma testbit_shr64 x n i :
  0 <= i -> Z.testbit (shr64 x n) i = Z.testbit x (i + n).
Proof. intros Hi. unfold shr64. apply Z.shiftr_spec. lia. Qed.

Lemma testbit_bit k i :
  0 <= k -> 0 <= i -> Z.testbit (Z.shiftl 1 k) i = (i =? k).
Proof.
  intros Hk Hi. rewrite Z.shiftl_spec by lia.
  destruct (Z.eqb_spec i k) as [->|Hne].
  - rewrite Z.sub_diag. reflexivity.
  - destruct (Z.ltb_spec i k).
    + apply Z.testbit_neg_r. lia.
    + change (Z.testbit (Z.ones 1) (i - k) = false).
      apply Z.ones_spec_high. lia.
Qed.

Lemma testbit_above x n i :
  0 <= x < 2 ^ n -> n <= i -> Z.testbit x i = false.
Proof.
  intros [Hx Hlt] Hi.
  destruct (Z.eq_dec x 0) as [->|Hne]; [apply Z.bits_0|].
  assert (0 <= n) by (destruct (Z.ltb_spec n 0); [rewrite Z.pow_neg_r in Hlt; lia | lia]).
  apply Z.bits_above_log2; [lia|].
  assert (Z.log2 x < n) by (apply Z.log2_lt_pow2; lia). lia.
Qed.

Lemma uint64_testbit_high x i :
  uint64 x -> 64 <= i -> Z.testbit x i = false.
Proof. intros Hx Hi. apply (testbit_above x 64); [exact Hx | lia]. Qed.

Lemma to_bool_land_bit v k :
  0 <= k -> to_bool (Z.land v (Z.shiftl 1 k)) = Z.testbit v k.
Proof.
  intros Hk. unfold to_bool.
  destruct (Z.testbit v k) eqn:Hb.
  - destruct (Z.eqb_spec (Z.land v (Z.shiftl 1 k)) 0) as [H0|]; [|reflexivity].
    assert (Hc : Z.testbit (Z.land v (Z.shiftl 1 k)) k = false)
      by (rewrite H0; apply Z.bits_0).
    rewrite Z.land_spec, Hb, testbit_bit, Z.eqb_refl in Hc by lia. discriminate.
  - replace (Z.land v (Z.shiftl 1 k)) with 0; [reflexivity|].
    symmetry. apply Z.bits_inj'. intros i Hi.
    rewrite Z.bits_0, Z.land_spec, testbit_bit by lia.
    destruct (Z.eqb_spec i k) as [->|]; [rewrite Hb|]; auto using andb_false_r.
Qed.

Lemma IsLocked_testbit v : IsLocked v = Z.testbit v 0.
Proof. apply (to_bool_land_bit v 0). lia. Qed.

Lemma IsDeleting_testbit v : IsDeleting v = Z.testbit v 1.
Proof. apply (to_bool_land_bit v 1). lia. Qed.

Lemma IsEnqueued_testbit v : IsEnqueued v = Z.testbit v 2.
Proof. apply (to_bool_land_bit v 2). lia. Qed.

Lemma IsLatest_testbit v : IsLatest v = Z.testbit v 3.
Proof. apply (to_bool_land_bit v 3). lia. Qed.

Lemma testbit_HDR_VERSION_MASK i :
  0 <= i -> Z.testbit HDR_VERSION_MASK i = (4 <=? i) && (i <? 64).
Proof.
  intros Hi. unfold HDR_VERSION_MASK, HDR_VERSION_SHIFT.
  rewrite testbit_shl64 by lia.
  destruct (Z.leb_spec 4 i).
  - rewrite testbit_UINT64_MAX by lia. lia.
  - rewrite Z.testbit_neg_r by lia. lia.
Qed.

Lemma testbit_Version v j :
  0 <= j -> Z.testbit (Version v) j = Z.testbit v (j + 4) && (j + 4 <? 64).
Proof.
  intros Hj. unfold Version, HDR_VERSION_SHIFT.
  rewrite testbit_shr64, Z.land_spec, testbit_HDR_VERSION_MASK by lia.
  destruct (Z.leb_spec 4 (j + 4)); [reflexivity | lia].
Qed.

(** ** Tactics *)

(** Case analysis on the integer comparisons of a goal about bits. *)
Ltac cmp_cases :=
  repeat match goal with
  | |- context [?x <? ?y] => destruct (Z.ltb_spec x y)
  | |- context [?x <=? ?y] => destruct (Z.leb_spec x y)
  | |- context [?x =? ?y] => destruct (Z.eqb_spec x y)
  end;
  try lia.

Ltac bits_simpl :=
  repeat first
    [ rewrite Z.land_spec | rewrite Z.lor_spec
    | rewrite testbit_not64 by lia
    | rewrite testbit_shl64 by lia
    | rewrite testbit_shr64 by lia
    | rewrite testbit_wrap64
    | rewrite testbit_HDR_VERSION_MASK by lia
    | rewrite testbit_bit by lia ].

(** ** unlock *)

Lemma testbit_unlock_word v i :
  0 <= i ->
  Z.testbit (unlock_word v) i =
    if i =? 0 then false
    else if i <? 4 then Z.testbit v i
    else (i <? 64) && Z.testbit (Version v + 1) (i - 4).
Proof.
  intros Hi. unfold unlock_word, HDR_VERSION_SHIFT, add64.
  change HDR_LOCKED_MASK with (Z.shiftl 1 0).
  bits_simpl.
  cmp_cases; simpl; rewrite ?andb_true_r, ?andb_false_r, ?orb_false_r; try reflexivity.
Qed.

Lemma Version_range v : 0 <= Version v < 2 ^ 60.
Proof.
  assert (H : Version v = Version v mod 2 ^ 60).
  { apply Z.bits_inj'. intros j Hj.
    rewrite Z.testbit_mod_pow2, testbit_Version by lia.
    cmp_cases; simpl; rewrite ?andb_false_r; reflexivity. }
  rewrite H. apply Z.mod_pos_bound. lia.
Qed.

Lemma unlock_word_uint64 v : uint64 (unlock_word v).
Proof.
  assert (H : unlock_word v = wrap64 (unlock_word v)).
  { apply Z.bits_inj'. intros i Hi.
    rewrite testbit_wrap64, testbit_unlock_word by lia.
    cmp_cases; reflexivity. }
  rewrite H. apply Z.mod_pos_bound. lia.
Qed.

Lemma Version_unlock_word v :
  Version (unlock_word v) = (Version v + 1) mod 2 ^ 60.
Proof.
  apply Z.bits_inj'. intros j Hj.
  rewrite testbit_Version, testbit_unlock_word, Z.testbit_mod_pow2 by lia.
  replace (j + 4 - 4) with j by lia.
  cmp_cases; simpl; rewrite ?andb_false_r, ?andb_true_r; reflexivity.
Qed.

Lemma flags_unlock_word v :
  IsLocked (unlock_word v) = false /\
  IsDeleting (unlock_word v) = IsDeleting v /\
  IsEnqueued (unlock_word v) = IsEnqueued v /\
  IsLatest (unlock_word v) = IsLatest v.
Proof.
  rewrite !IsLocked_testbit, !IsDeleting_testbit, !IsEnqueued_testbit,
    !IsLatest_testbit, !testbit_unlock_word by lia.
  repeat split.
Qed.

Lemma unlock_locked chk v :
  IsLocked v = true -> unlock chk v = Ok (unlock_word v).
Proof.
  intros Hl. unfold unlock, INVARIANT. fold (unlock_word v).
  destruct (flags_unlock_word v) as [Hu _].
  rewrite Hl, Hu. destruct chk; reflexivity.
Qed.

Lemma lock_Ok fuel u v :
  lock fuel u = Ok v -> IsLocked u = false /\ v = Z.lor u HDR_LOCKED_MASK.
Proof.
  induction fuel as [|fuel IH]; simpl; [discriminate|].
  destruct (IsLocked u) eqn:Hl; [exact IH|].
  intros [= <-]. split; reflexivity.
Qed.

Lemma lock_unlocked fuel u :
  IsLocked u = false -> lock (S fuel) u = Ok (Z.lor u HDR_LOCKED_MASK).
Proof. intros Hl. simpl. rewrite Hl. reflexivity. Qed.

Lemma lock_locked fuel u :
  IsLocked u = true -> lock fuel u = Failed OutOfFuel.
Proof.
  intros Hl. induction fuel as [|fuel IH]; simpl; [reflexivity|].
  rewrite Hl. exact IH.
Qed.

Lemma Version_lor_flag v k :
  0 <= k < 4 -> Version (Z.lor v (Z.shiftl 1 k)) = Version v.
Proof.
  intros Hk. apply Z.bits_inj'. intros j Hj.
  rewrite !testbit_Version, Z.lor_spec, testbit_bit by lia.
  cmp_cases. rewrite orb_false_r. reflexivity.
Qed.

Lemma Version_land_not_flag v k :
  0 <= k < 4 -> Version (Z.land v (not64 (Z.shiftl 1 k))) = Version v.
Proof.
  intros Hk. apply Z.bits_inj'. intros j Hj.
  rewrite !testbit_Version, Z.land_spec, testbit_not64, testbit_bit by lia.
  cmp_cases; simpl; rewrite ?andb_true_r, ?andb_false_r; reflexivity.
Qed.

(** C6 (as amended). For every header word [v] with LOCKED set, [unlock]
    returns; the word it stores is a 64-bit word with LOCKED clear, with
    DELETING, ENQUEUED and LATEST as in [v], and with VERSION equal to the
    old VERSION plus one modulo 2^60. VERSION therefore grows by one unless
    it was 2^60 - 1, in which case it wraps to 0; and over a [lock]/[unlock]
    cycle that starts with VERSION below 2^60 - 1 it does not decrease
    ([lock] leaves VERSION alone). *)
Theorem unlock_clears_lock_and_bumps_version chk v :
  IsLocked v = true ->
  exists v',
    unlock chk v = Ok v' /\ uint64 v' /\
    IsLocked v' = false /\
    IsDeleting v' = IsDeleting v /\
    IsEnqueued v' = IsEnqueued v /\
    IsLatest v' = IsLatest v /\
    Version v' = (Version v + 1) mod 2 ^ 60 /\
    (Version v < 2 ^ 60 - 1 -> Version v' = Version v + 1) /\
    (Version v = 2 ^ 60 - 1 -> Version v' = 0) /\
    (forall fuel u, lock fuel u = Ok v ->
       Version u = Version v /\ (Version u < 2 ^ 60 - 1 -> Version u <= Version v')).
Proof.
  intros Hl. exists (unlock_word v).
  destruct (flags_unlock_word v) as (Hf0 & Hf1 & Hf2 & Hf3).
  pose proof (Version_range v) as Hr.
  pose proof (Version_unlock_word v) as Hv.
  assert (Hsmall : Version v < 2 ^ 60 - 1 -> Version (unlock_word v) = Version v + 1).
  { intros Hlt. rewrite Hv. apply Z.mod_small. lia. }
  split; [apply unlock_locked; exact Hl|].
  split; [apply unlock_word_uint64|].
  do 5 (split; [assumption|]).
  split; [exact Hsmall|].
  split.
  - intros Heq. rewrite Hv, Heq. reflexivity.
  - intros fuel u Hlock. apply lock_Ok in Hlock as [_ ->].
    change HDR_LOCKED_MASK with (Z.shiftl 1 0) in *.
    rewrite Version_lor_flag in * by lia.
    split; [reflexivity|].
    intros Hlt. rewrite Hsmall by exact Hlt. lia.
Qed.

Lemma unlock_clears_lock_and_bumps_version_witness :
  IsLocked 9 = true /\
  exists v', unlock true 9 = Ok v' /\ Version v' = (Version 9 + 1) mod 2 ^ 60.
Proof.
  split; [reflexivity|].
  destruct (unlock_clears_lock_and_bumps_version true 9 eq_refl)
    as (v' & H1 & _ & _ & _ & _ & _ & H2 & _).
  exists v'. split; assumption.
Defined.

(** The cycle that wraps: VERSION 2^60 - 1 before [lock], 0 after [unlock]. *)
Lemma unlock_version_wraps :
  lock 1 (2 ^ 64 - 16) = Ok (2 ^ 64 - 15) /\
  IsLocked (2 ^ 64 - 15) = true /\
  unlock true (2 ^ 64 - 15) = Ok 0 /\
  Version (2 ^ 64 - 16) = 2 ^ 60 - 1 /\
  Version 0 = 0 /\
  ~ Version (2 ^ 64 - 16) <= Version 0.
Proof.
  repeat split; try (vm_compute; reflexivity).
  vm_compute. intros H. apply H. reflexivity.
Qed.

(** ** The header operations keep DELETING and ENQUEUED apart *)

Lemma INVARIANT_true chk : INVARIANT chk true = Ok tt.
Proof. destruct chk; reflexivity. Qed.

Lemma hdr_step_word chk fuel op h h' :
  hdr_pre op h = true ->
  hdr_step chk fuel op h = Ok h' ->
  match op with
  | op_lock => IsLocked h = false /\ h' = Z.lor h HDR_LOCKED_MASK
  | op_unlock => h' = unlock_word h
  | op_mark_deleting => h' = Z.lor h HDR_DELETING_MASK
  | op_set_enqueued true => h' = Z.lor h HDR_ENQUEUED_MASK
  | op_set_enqueued false => h' = Z.land h (not64 HDR_ENQUEUED_MASK)
  | op_set_latest true => h' = Z.lor h HDR_LATEST_MASK
  | op_set_latest false => h' = Z.land h (not64 HDR_LATEST_MASK)
  end.
Proof.
  destruct op as [| | |e|l]; simpl; intros Hpre Hstep.
  - apply lock_Ok in Hstep. exact Hstep.
  - rewrite unlock_locked in Hstep by exact Hpre. congruence.
  - apply andb_prop in Hpre as [Hpre Hd]. apply andb_prop in Hpre as [Hl He].
    unfold mark_deleting in Hstep.
    rewrite Hl, He, Hd, INVARIANT_true in Hstep. simpl in Hstep. congruence.
  - apply andb_prop in Hpre as [Hl Hd].
    unfold set_enqueued in Hstep.
    rewrite Hl, Hd, INVARIANT_true in Hstep. simpl in Hstep.
    destruct e; congruence.
  - unfold set_latest in Hstep.
    rewrite Hpre, INVARIANT_true in Hstep. simpl in Hstep.
    destruct l; congruence.
Qed.

Lemma hdr_step_total chk fuel op h :
  hdr_pre op h = true ->
  (op = op_lock -> IsLocked h = false) ->
  exists h', hdr_step chk (S fuel) op h = Ok h'.
Proof.
  destruct op as [| | |e|l]; simpl; intros Hpre Hlock.
  - rewrite Hlock by reflexivity. eauto.
  - rewrite unlock_locked by exact Hpre. eauto.
  - apply andb_prop in Hpre as [Hpre Hd]. apply andb_prop in Hpre as [Hl He].
    unfold mark_deleting. rewrite Hl, He, Hd, INVARIANT_true. simpl. eauto.
  - apply andb_prop in Hpre as [Hl Hd].
    unfold set_enqueued. rewrite Hl, Hd, INVARIANT_true. simpl.
    destruct e; eauto.
  - unfold set_latest. rewrite Hpre, INVARIANT_true. simpl. destruct l; eauto.
Qed.

Lemma hdr_step_exclusive chk fuel op h h' :
  hdr_pre op h = true ->
  hdr_step chk fuel op h = Ok h' ->
  hdr_exclusive h -> hdr_exclusive h'.
Proof.
  intros Hpre Hstep Hex. pose proof (hdr_step_word _ _ _ _ _ Hpre Hstep) as Hw.
  unfold hdr_exclusive in *.
  rewrite IsDeleting_testbit, IsEnqueued_testbit in *.
  destruct op as [| | |[]|[]]; simpl in Hpre;
    rewrite ?IsLocked_testbit, ?IsDeleting_testbit, ?IsEnqueued_testbit in Hpre;
    try (match type of Hw with _ /\ _ => destruct Hw as [_ Hw] end); subst h';
    unfold HDR_DELETING_MASK, HDR_DELETING_SHIFT, HDR_ENQUEUED_MASK,
      HDR_ENQUEUED_SHIFT, HDR_LATEST_MASK, HDR_LATEST_SHIFT;
    change HDR_LOCKED_MASK with (Z.shiftl 1 0);
    rewrite ?testbit_unlock_word, ?Z.lor_spec, ?Z.land_spec, ?testbit_not64,
      ?testbit_bit by lia;
    destruct (Z.testbit h 0), (Z.testbit h 1), (Z.testbit h 2);
    simpl in *; try discriminate; intuition discriminate.
Qed.

Lemma fresh_hdr_exclusive l : hdr_exclusive (fresh_hdr l).
Proof. destruct l; intros [H _]; vm_compute in H; discriminate. Qed.

Lemma hdr_run_exclusive chk fuel ops h h' :
  hdr_run chk fuel ops h h' -> hdr_exclusive h -> hdr_exclusive h'.
Proof.
  induction 1 as [h|op ops h h1 h2 Hpre Hstep _ IH]; [trivial|].
  intros Hex. apply IH. eapply hdr_step_exclusive; eassumption.
Qed.

(** C7. Starting from the header a constructor leaves, every sequence of
    [lock], [unlock], [mark_deleting], [set_enqueued] and [set_latest] calls
    in which each call is made in a state that meets its precondition ends
    in a header that does not have both DELETING and ENQUEUED set. (Every
    prefix of such a sequence is such a sequence, so the headers in between
    are covered as well.) *)
Theorem deleting_and_enqueued_never_both chk fuel ops l h :
  hdr_run chk fuel ops (fresh_hdr l) h -> hdr_exclusive h.
Proof.
  intros Hrun. eapply hdr_run_exclusive; [exact Hrun|apply fresh_hdr_exclusive].
Qed.

Lemma deleting_and_enqueued_never_both_witness :
  hdr_run true 1
    [op_lock; op_set_enqueued true; op_set_enqueued false; op_mark_deleting; op_unlock]
    (fresh_hdr true) 26 /\
  hdr_exclusive 26.
Proof.
  assert (Hrun : hdr_run true 1
    [op_lock; op_set_enqueued true; op_set_enqueued false; op_mark_deleting; op_unlock]
    (fresh_hdr true) 26).
  { apply (hdr_run_cons true 1 op_lock _ 8 9 26); [reflexivity|reflexivity|].
    apply (hdr_run_cons true 1 (op_set_enqueued true) _ 9 13 26); [reflexivity|reflexivity|].
    apply (hdr_run_cons true 1 (op_set_enqueued false) _ 13 9 26); [reflexivity|reflexivity|].
    apply (hdr_run_cons true 1 op_mark_deleting _ 9 11 26); [reflexivity|reflexivity|].
    apply (hdr_run_cons true 1 op_unlock _ 11 26 26); [reflexivity|reflexivity|].
    apply hdr_run_nil. }
  split; [exact Hrun|].
  exact (deleting_and_enqueued_never_both true 1 _ true 26 Hrun).
Defined.
(** ** The spill path of write_record_at in general *)

Lemma alloc_capacity_bounds sz :
  0 <= sz < 2 ^ 32 -> sz <= alloc_capacity sz <= sz + 15.
Proof.
  intros Hsz. unfold alloc_capacity, sub64, round_up, wrap64, sizeof_logical_node.
  change (2 ^ 32) with 4294967296 in Hsz.
  change (2 ^ 64) with 18446744073709551616.
  rewrite (Z.mod_small (32 + sz)) by lia.
  pose proof (Z.div_mod (32 + sz + 16 - 1) 16 ltac:(lia)) as Hdm.
  pose proof (Z.mod_pos_bound (32 + sz + 16 - 1) 16 ltac:(lia)) as Hmb.
  rewrite (Z.mod_small ((32 + sz + 16 - 1) / 16 * 16)) by lia.
  rewrite Z.mod_small by lia. lia.
Qed.

Lemma memcpy_Ok dst src n :
  0 <= n -> n <= Z.of_nat (length src) -> n <= Z.of_nat (length dst) ->
  memcpy dst src n = Ok (take (Z.to_nat n) src ++ drop (Z.to_nat n) dst).
Proof.
  intros H0 H1 H2. unfold memcpy.
  replace (0 <=? n) with true by lia.
  replace (n <=? Z.of_nat (length src)) with true by lia.
  replace (n <=? Z.of_nat (length dst)) with true by lia. reflexivity.
Qed.

Lemma length_uninitialised n : length (uninitialised n) = Z.to_nat n.
Proof. unfold uninitialised. apply length_replicate. Qed.

Lemma alloc_spill chk h n sz :
  node_wf n -> 0 <= sz <= alloc_size n ->
  alloc chk h (version n) (value_start n) sz (next n) false =
    Ok (<[fresh (dom h) := spilled n sz]> h, fresh (dom h)).
Proof.
  intros (Hlen & Hsize & Hcap) Hsz.
  pose proof (alloc_capacity_bounds sz ltac:(lia)) as Hb.
  unfold alloc, logical_node_ctor. fold (alloc_capacity sz).
  replace (sz <=? alloc_capacity sz) with true by lia.
  rewrite INVARIANT_true. cbn [mbind result_bind].
  rewrite memcpy_Ok by (rewrite ?length_uninitialised; lia).
  reflexivity.
Qed.

Lemma spilled_fields n sz :
  node_wf n -> 0 <= sz <= alloc_size n ->
  is_latest (spilled n sz) = false /\
  next (spilled n sz) = next n /\
  version (spilled n sz) = version n /\
  size (spilled n sz) = sz /\
  payload (spilled n sz) = take (Z.to_nat sz) (value_start n).
Proof.
  intros (Hlen & Hsize & Hcap) Hsz.
  assert (Hw : wrap32 sz = sz) by (unfold wrap32; apply Z.mod_small; lia).
  repeat split; try assumption.
  unfold payload, spilled. cbn [size value_start]. rewrite Hw.
  apply take_app_length'. rewrite length_take. lia.
Qed.

(** What the spill branch does when the buffer in place suffices. *)
Lemma write_record_at_spill chk CoreBits gle h this n txn t r sz :
  h !! this = Some n ->
  is_locked n = true -> is_latest n = true -> node_wf n ->
  can_overwrite_record_tid chk CoreBits gle txn (version n) t = Ok false ->
  0 <= sz <= alloc_size n ->
  sz <= Z.of_nat (length r) ->
  write_record_at chk CoreBits gle h this txn t r sz =
    Ok (<[this := mk_logical_node (hdr n) (Some (fresh (dom h))) t sz (alloc_size n)
                    (take (Z.to_nat sz) r ++ drop (Z.to_nat sz) (value_start n))]>
          (<[fresh (dom h) := spilled n sz]> h),
        (true, None)).
Proof.
  intros Hn Hlock Hlat Hwf Hcan Hsz Hr.
  pose proof Hwf as (Hlen & Hsize & Hcap).
  destruct (spilled_fields n sz Hwf Hsz) as (Hsl & _).
  unfold write_record_at, deref. rewrite Hn. cbn [mbind result_bind].
  rewrite Hlock, Hlat, !INVARIANT_true. cbn [mbind result_bind].
  rewrite Hcan. cbn [mbind result_bind].
  replace (sz <=? alloc_size n) with true by lia.
  rewrite alloc_spill by assumption. cbn [mbind result_bind].
  rewrite lookup_insert_eq. cbn [mbind result_bind]. rewrite Hsl. cbn [negb].
  rewrite INVARIANT_true. cbn [mbind result_bind].
  rewrite memcpy_Ok by lia. cbn [mbind result_bind].
  replace (wrap32 sz) with sz by (unfold wrap32; rewrite Z.mod_small; lia).
  reflexivity.
Qed.

(** The spilled cell keeps the old record exactly when the new record has
    the size of the old one. *)
Lemma spilled_payload_iff n sz :
  node_wf n -> 0 <= sz <= alloc_size n ->
  (payload (spilled n sz) = payload n /\ size (spilled n sz) = size n)
  <-> sz = size n.
Proof.
  intros Hwf Hsz. destruct (spilled_fields n sz Hwf Hsz) as (_ & _ & _ & Hs & Hp).
  rewrite Hs, Hp. split; [tauto|]. intros ->. split; reflexivity.
Qed.

(** Inversion of a successful run of monadic code, one call at a time. *)
Ltac invert_Ok H :=
  unfold mbind, result_bind in H;
  repeat match type of H with
  | match ?m with _ => _ end = Ok _ =>
      let E := fresh "E" in destruct m eqn:E; try discriminate H
  end.

(** The growth flag that [write_record_at] returns is the negation of the
    protocol's answer for the tid of the cell and the tid of the write. *)
Lemma write_record_at_growth chk CoreBits gle h this txn t r sz h' growth rep :
  write_record_at chk CoreBits gle h this txn t r sz = Ok (h', (growth, rep)) ->
  exists n, h !! this = Some n /\
    can_overwrite_record_tid chk CoreBits gle txn (version n) t = Ok (negb growth).
Proof.
  intros H. unfold write_record_at, deref in H.
  destruct (h !! this) as [n|] eqn:Hn; [|discriminate H].
  exists n. split; [reflexivity|].
  invert_Ok H; injection H as _ <- _; reflexivity.
Qed.

Lemma proto1_write_always_grows chk CoreBits gle h this t r sz h' growth rep :
  write_record_at chk CoreBits gle h this transaction_proto1 t r sz
    = Ok (h', (growth, rep)) ->
  growth = true.
Proof.
  intros H. apply write_record_at_growth in H as (n & _ & Hcan).
  simpl in Hcan. unfold transaction_can_overwrite_record_tid in Hcan.
  destruct growth; [reflexivity | discriminate Hcan].
Qed.

(** C2 (the code at an input where it departs from the claim). A locked
    LATEST cell at tid 1 holds the 3 bytes "abc"; protocol 1 writes the one
    byte "x" at tid 2. The call returns (growth = true, no replacement), the
    new cell is linked as [next], is not LATEST and carries tid 1, and the
    cell in place holds "x" at tid 2 -- but the new cell has size 1 and
    holds "a": the first [sz] bytes of the old record, not all [size] of
    them. *)
Theorem write_record_at_spill_truncates_old_payload :
  is_locked cell_abc = true /\ is_latest cell_abc = true /\ node_wf cell_abc /\
  can_overwrite_record_tid true 10 0 transaction_proto1 (version cell_abc) 2 = Ok false /\
  payload cell_abc = [x61; x62; x63] /\
  exists h' spill,
    write_record_at true 10 0 heap_abc 1%positive transaction_proto1 2 [x78] 1
      = Ok (h', (true, None)) /\
    h' !! 2%positive = Some spill /\
    is_latest spill = false /\ version spill = 1 /\ next spill = None /\
    size spill = 1 /\ payload spill = [x61] /\
    payload spill <> payload cell_abc /\
    exists this', h' !! 1%positive = Some this' /\
      next this' = Some 2%positive /\ version this' = 2 /\
      size this' = 1 /\ payload this' = [x78].
Proof.
  split; [reflexivity|]. split; [reflexivity|].
  split; [repeat split; vm_compute; congruence|].
  split; [reflexivity|]. split; [reflexivity|].
  eexists. eexists.
  split; [vm_compute; reflexivity|].
  split; [vm_compute; reflexivity|].
  repeat split; try (vm_compute; reflexivity).
  - vm_compute. discriminate.
  - eexists. split; [vm_compute; reflexivity|].
    repeat split.
Qed.

(** ** Commit-time validation of a read *)

Lemma try_stable_version_unlocked spins v :
  IsLocked v = false -> try_stable_version spins v = (true, v).
Proof. intros Hl. destruct spins; simpl; rewrite Hl; reflexivity. Qed.

Lemma try_stable_version_locked spins v :
  IsLocked v = true -> try_stable_version spins v = (false, v).
Proof.
  intros Hl. induction spins as [|spins IH]; simpl; rewrite Hl; [reflexivity|exact IH].
Qed.

Lemma stable_is_latest_version_eq n t :
  stable_is_latest_version n t =
    negb (is_locked n) && (is_latest n && is_not_behind n t).
Proof.
  unfold stable_is_latest_version, is_locked, is_latest, check_version.
  destruct (IsLocked (hdr n)) eqn:Hl.
  - rewrite try_stable_version_locked by exact Hl. reflexivity.
  - rewrite try_stable_version_unlocked by exact Hl. simpl.
    rewrite Z.eqb_refl, andb_true_r.
    destruct (IsLatest (hdr n) && is_not_behind n t); reflexivity.
Qed.

(** C3 (as amended). For every unlocked cell and every tid [t],
    [stable_is_latest_version(t)] returns true exactly when the cell carries
    LATEST and its tid is at most [t]: it returns false whenever the cell's
    tid exceeds [t] or LATEST is clear, and a cell whose tid is smaller than
    [t] still validates. *)
Theorem stable_is_latest_version_unlocked n t :
  is_locked n = false ->
  (stable_is_latest_version n t = true <-> is_latest n = true /\ version n <= t) /\
  (t < version n -> stable_is_latest_version n t = false) /\
  (is_latest n = false -> stable_is_latest_version n t = false).
Proof.
  intros Hl. rewrite stable_is_latest_version_eq, Hl. simpl.
  unfold is_not_behind. split; [split|split].
  - intros H. apply andb_prop in H as [H1 H2]. split; [exact H1 | lia].
  - intros [-> H]. simpl. lia.
  - intros Ht. replace (version n <=? t) with false by lia. apply andb_false_r.
  - intros ->. reflexivity.
Qed.

Lemma stable_is_latest_version_unlocked_witness :
  is_locked cell_1 = false /\
  (stable_is_latest_version cell_1 2 = true <-> is_latest cell_1 = true /\ version cell_1 <= 2).
Proof.
  split; [reflexivity|].
  exact (proj1 (stable_is_latest_version_unlocked cell_1 2 eq_refl)).
Defined.

(** A LATEST cell at tid 1 validates a read recorded at tid 2. *)
Lemma stable_is_latest_version_older_tid :
  is_locked cell_1 = false /\ is_latest cell_1 = true /\
  stable_is_latest_version cell_1 2 = true /\ version cell_1 <> 2.
Proof. repeat split. discriminate. Qed.

(** ** ensure_active *)

Lemma ensure_active_cases this :
  ensure_active this =
    match state this with
    | TXN_EMBRYO => (set_state this TXN_ACTIVE, Returns tt)
    | TXN_ACTIVE => (this, Returns tt)
    | TXN_COMMITED | TXN_ABRT => (this, Throws transaction_unusable_exception)
    end.
Proof. unfold ensure_active. destruct (state this); reflexivity. Qed.




(** ** Reading a chain *)

Lemma stable_version_unlocked fuel v :
  IsLocked v = false -> stable_version (S fuel) v = Ok v.
Proof. intros Hl. simpl. rewrite Hl. reflexivity. Qed.

Lemma stable_version_locked fuel v :
  IsLocked v = true -> stable_version fuel v = Failed OutOfFuel.
Proof.
  intros Hl. induction fuel as [|fuel IH]; simpl; [reflexivity|].
  rewrite Hl. exact IH.
Qed.

Lemma record_at_step fuel h this n t start_t r rl :
  h !! this = Some n -> is_locked n = false ->
  record_at (S (S fuel)) h this t start_t r rl =
    if is_not_behind n t then
      if rl && negb (is_latest n) then Ok (false, start_t, r)
      else Ok (true, version n, payload n)
    else
      match next n with
      | Some p' => record_at (S fuel) h p' t start_t r false
      | None => Ok (false, start_t, r)
      end.
Proof.
  intros Hn Hl. unfold is_locked, is_latest in *.
  cbn [record_at]. unfold deref. rewrite Hn. cbn [mbind result_bind].
  rewrite stable_version_unlocked by exact Hl. cbn [mbind result_bind].
  unfold check_version. rewrite Z.eqb_refl. cbn [negb].
  destruct (is_not_behind n t); cbn [andb]; [|reflexivity].
  destruct (rl && negb (IsLatest (hdr n))); reflexivity.
Qed.

Lemma record_at_chain h ns :
  forall p t start_t r rl fuel,
    chain h (Some p) ns -> unlocked ns ->
    (length ns < fuel)%nat ->
    record_at fuel h p t start_t r rl = Ok (read_cells ns t start_t r rl).
Proof.
  induction ns as [|n ns IH]; intros p t start_t r rl fuel Hc Hu Hf.
  - inversion Hc.
  - inversion Hc as [|p0 n0 ns0 Hn Hrest]; subst.
    unfold unlocked in Hu. inversion Hu as [|n1 ns1 Hl Hu']; subst.
    destruct fuel as [|[|fuel]]; simpl in Hf; try lia.
    rewrite (record_at_step fuel h p n) by assumption.
    cbn [read_cells]. unfold is_not_behind.
    destruct (version n <=? t); [destruct (rl && negb (is_latest n)); reflexivity|].
    destruct (next n) as [q|] eqn:Hq.
    + apply IH; [exact Hrest | exact Hu' | lia].
    + inversion Hrest. reflexivity.
Qed.

Lemma read_cells_ancestors ns t start_t r :
  forall b start_t' r',
    read_cells ns t start_t r false = (b, start_t', r') ->
    (b = true <-> Exists (fun c => version c <= t) ns) /\
    (b = true ->
       exists newer c older,
         ns = newer ++ c :: older /\
         Forall (fun c' => t < version c') newer /\
         version c <= t /\ start_t' = version c /\ r' = payload c) /\
    (b = false -> start_t' = start_t /\ r' = r).
Proof.
  induction ns as [|n ns IH]; intros b st' r' Hread; cbn [read_cells] in Hread.
  - injection Hread as <- <- <-. repeat split; try discriminate.
    intros Hex. inversion Hex.
  - destruct (Z.leb_spec (version n) t) as [Hle|Hgt].
    + cbn [andb] in Hread. injection Hread as <- <- <-.
      split; [|split].
      * split; [intros _; apply Exists_cons_hd; exact Hle | reflexivity].
      * intros _. exists [], n, ns. repeat split; [constructor | exact Hle].
      * discriminate.
    + destruct (IH _ _ _ Hread) as (Hiff & Htrue & Hfalse).
      split; [|split].
      * rewrite Hiff. split; [apply Exists_cons_tl|].
        intros Hex. inversion Hex; subst; [lia | assumption].
      * intros Hb. destruct (Htrue Hb) as (newer & c & older & -> & Hnew & Hc).
        exists (n :: newer), c, older.
        split; [reflexivity|]. split; [constructor; assumption | exact Hc].
      * exact Hfalse.
Qed.

(** C1. For every finite chain of unlocked cells that starts at the entry
    cell [n], and every tid [t], [stable_read] returns (with any fuel above
    the length of the chain). If the entry cell has [tid <= t] but does not
    carry LATEST in the stable version, it returns false. Otherwise it
    returns true exactly when some cell of the chain has [tid <= t]. When
    it returns true, [start_t] and [r] hold the tid and the bytes
    [value_start[0 .. size)] of the first such cell, all cells in front of
    it having a tid above [t]; when it returns false, [start_t] and [r] are
    untouched. Behind the entry cell the walk continues with
    [require_latest] false, so the LATEST bit of those cells plays no
    role. *)
Theorem stable_read_spec h p n ns t start_t r fuel :
  chain h (Some p) (n :: ns) ->
  unlocked (n :: ns) ->
  (length (n :: ns) < fuel)%nat ->
  exists b start_t' r',
    stable_read fuel h p t start_t r = Ok (b, start_t', r') /\
    (version n <= t -> is_latest n = false -> b = false) /\
    (~ (version n <= t /\ is_latest n = false) ->
       (b = true <-> Exists (fun c => version c <= t) (n :: ns))) /\
    (b = true ->
       exists newer c older,
         n :: ns = newer ++ c :: older /\
         Forall (fun c' => t < version c') newer /\
         version c <= t /\ start_t' = version c /\ r' = payload c) /\
    (b = false -> start_t' = start_t /\ r' = r) /\
    (t < version n ->
       stable_read fuel h p t start_t r =
         match next n with
         | Some q => record_at (Nat.pred fuel) h q t start_t r false
         | None => Ok (false, start_t, r)
         end).
Proof.
  intros Hc Hu Hf.
  destruct (read_cells (n :: ns) t start_t r true) as [[b st'] r'] eqn:Hread.
  exists b, st', r'. unfold stable_read.
  split; [rewrite (record_at_chain h (n :: ns)) by assumption; congruence|].
  assert (Hstep : t < version n ->
    record_at fuel h p t start_t r true =
      match next n with
      | Some q => record_at (Nat.pred fuel) h q t start_t r false
      | None => Ok (false, start_t, r)
      end).
  { intros Hgt. inversion Hc as [|p0 n0 ns0 Hn Hrest]; subst.
    inversion Hu as [|n1 ns1 Hl Hu']; subst.
    destruct fuel as [|[|fuel]]; simpl in Hf; try lia.
    rewrite (record_at_step fuel h p n) by assumption.
    unfold is_not_behind. replace (version n <=? t) with false by lia. reflexivity. }
  cbn [read_cells] in Hread.
  destruct (Z.leb_spec (version n) t) as [Hle|Hgt].
  - destruct (is_latest n) eqn:Hlat; cbn [andb negb] in Hread;
      injection Hread as <- <- <-.
    + split; [discriminate|]. split; [|split; [|split]].
      * intros _. split; [intros _; apply Exists_cons_hd; exact Hle | reflexivity].
      * intros _. exists [], n, ns. repeat split; [constructor | exact Hle].
      * discriminate.
      * lia.
    + split; [reflexivity|]. split; [|split; [|split]].
      * intros Hn. exfalso. apply Hn. split; [exact Hle | reflexivity].
      * discriminate.
      * intros _. split; reflexivity.
      * lia.
  - destruct (read_cells_ancestors ns t start_t r _ _ _ Hread) as (Hiff & Htrue & Hfalse).
    split; [lia|]. split; [|split; [|split]].
    + intros _. rewrite Hiff. split; [apply Exists_cons_tl|].
      intros Hex. inversion Hex; subst; [lia | assumption].
    + intros Hb. destruct (Htrue Hb) as (newer & c & older & -> & Hnew & Hcc).
      exists (n :: newer), c, older.
      split; [reflexivity|]. split; [constructor; assumption | exact Hcc].
    + exact Hfalse.
    + exact Hstep.
Qed.

Lemma payload_length n :
  node_wf n -> length (payload n) = Z.to_nat (size n).
Proof.
  intros (Hlen & Hsz & _). unfold payload. rewrite length_take. lia.
Qed.

Lemma chain_heap_2 : chain heap_2 (Some 1%positive) [cell_new; cell_old].
Proof.
  apply (chain_cell heap_2 1%positive cell_new [cell_old]); [reflexivity|].
  apply (chain_cell heap_2 2%positive cell_old []); [reflexivity|].
  apply chain_null.
Qed.

Lemma stable_read_spec_witness :
  stable_read 3 heap_2 1%positive 5 0 [] = Ok (true, 3, [x6f; x6c; x64]) /\
  exists b start_t' r',
    stable_read 3 heap_2 1%positive 5 0 [] = Ok (b, start_t', r') /\
    (b = true <-> Exists (fun c => version c <= 5) [cell_new; cell_old]).
Proof.
  split; [reflexivity|].
  destruct (stable_read_spec heap_2 1%positive cell_new [cell_old] 5 0 [] 3)
    as (b & st' & r' & Hrun & _ & Hiff & _).
  - exact chain_heap_2.
  - repeat constructor.
  - simpl. lia.
  - exists b, st', r'. split; [exact Hrun|].
    apply Hiff. intros [H _]. simpl in H. lia.
Defined.

(** A read through a locked entry cell spins: it does not return,
    whatever the fuel. *)
Lemma record_at_locked_entry fuel h this n t start_t r rl :
  h !! this = Some n -> is_locked n = true ->
  record_at fuel h this t start_t r rl = Failed OutOfFuel.
Proof.
  intros Hn Hl. destruct fuel as [|fuel]; [reflexivity|].
  cbn [record_at]. unfold deref. rewrite Hn. cbn [mbind result_bind].
  rewrite stable_version_locked by exact Hl. reflexivity.
Qed.
(** ** The TID layout of protocol 2 *)

Lemma pow2_CoreBits_bound CoreBits :
  0 <= CoreBits < 37 -> 0 < 2 ^ CoreBits < 2 ^ 64.
Proof.
  intros H. split; [apply Z.pow_pos_nonneg; lia|].
  apply Z.pow_lt_mono_r; lia.
Qed.

Lemma CoreMask_ones CoreBits NMaxCores :
  proto2_params CoreBits NMaxCores -> CoreMask NMaxCores = Z.ones CoreBits.
Proof.
  intros [Hcb ->]. pose proof (pow2_CoreBits_bound CoreBits Hcb).
  unfold CoreMask, wrap64. rewrite Z.ones_equiv, Z.mod_small; lia.
Qed.

(** Bits that lie outside the range of a bounded number or of a mask. *)
Ltac bit_range :=
  first
    [ reflexivity
    | apply Z.ones_spec_low; lia
    | apply Z.ones_spec_high; lia
    | apply Z.testbit_neg_r; lia
    | rewrite testbit_UINT64_MAX by lia; lia ].

Lemma testbit_CoreMask CoreBits NMaxCores i :
  proto2_params CoreBits NMaxCores -> 0 <= i ->
  Z.testbit (CoreMask NMaxCores) i = (i <? CoreBits).
Proof.
  intros Hp Hi. rewrite (CoreMask_ones CoreBits) by exact Hp.
  destruct Hp as [Hcb _]. cmp_cases; bit_range.
Qed.

Lemma testbit_NumIdMask CoreBits i :
  0 <= CoreBits < 37 -> 0 <= i ->
  Z.testbit (NumIdMask CoreBits) i = (CoreBits <=? i) && (i <? CoreBits + 27).
Proof.
  intros Hcb Hi. unfold NumIdMask, NumIdShift.
  change (sub64 (shl64 1 27) 1) with (Z.ones 27).
  rewrite testbit_shl64 by lia.
  cmp_cases; simpl; bit_range.
Qed.

Lemma testbit_EpochMask CoreBits i :
  0 <= CoreBits < 37 -> 0 <= i ->
  Z.testbit (EpochMask CoreBits) i = (CoreBits + 27 <=? i) && (i <? 64).
Proof.
  intros Hcb Hi. unfold EpochMask, EpochShift, NumIdShift.
  rewrite testbit_shl64 by lia.
  cmp_cases; simpl; bit_range.
Qed.

Lemma EpochId_shiftr CoreBits v :
  0 <= CoreBits < 37 -> uint64 v ->
  EpochId CoreBits v = Z.shiftr v (CoreBits + 27).
Proof.
  intros Hcb Hv. apply Z.bits_inj'. intros j Hj.
  unfold EpochId. rewrite testbit_shr64, Z.land_spec, testbit_EpochMask by
    (unfold EpochShift, NumIdShift; lia).
  rewrite Z.shiftr_spec by lia. unfold EpochShift, NumIdShift.
  cmp_cases; simpl; rewrite ?andb_true_r, ?andb_false_r; try reflexivity.
  symmetry. apply uint64_testbit_high; [exact Hv | lia].
Qed.

Lemma EpochId_range CoreBits v :
  0 <= CoreBits < 37 -> uint64 v ->
  0 <= EpochId CoreBits v < 2 ^ (37 - CoreBits).
Proof.
  intros Hcb [Hv0 Hv1]. rewrite EpochId_shiftr by (assumption || split; assumption).
  rewrite Z.shiftr_div_pow2 by lia.
  assert (Hp : 0 < 2 ^ (CoreBits + 27)) by (apply Z.pow_pos_nonneg; lia).
  split; [apply Z.div_pos; lia|].
  apply Z.div_lt_upper_bound; [exact Hp|].
  rewrite <- Z.pow_add_r by lia.
  replace (CoreBits + 27 + (37 - CoreBits)) with 64 by lia. exact Hv1.
Qed.

Lemma NumId_field CoreBits v :
  0 <= CoreBits < 37 ->
  NumId CoreBits v = Z.shiftr v CoreBits mod 2 ^ 27.
Proof.
  intros Hcb. apply Z.bits_inj'. intros j Hj.
  unfold NumId, NumIdShift.
  rewrite testbit_shr64, Z.land_spec, testbit_NumIdMask by lia.
  rewrite Z.testbit_mod_pow2, Z.shiftr_spec by lia.
  cmp_cases; simpl; rewrite ?andb_true_r, ?andb_false_r; reflexivity.
Qed.

Lemma CoreId_field CoreBits NMaxCores v :
  proto2_params CoreBits NMaxCores ->
  CoreId NMaxCores v = v mod 2 ^ CoreBits.
Proof.
  intros Hp. unfold CoreId. rewrite (CoreMask_ones CoreBits) by exact Hp.
  apply Z.land_ones. destruct Hp; lia.
Qed.

Lemma masks_partition CoreBits NMaxCores :
  proto2_params CoreBits NMaxCores ->
  Z.land (CoreMask NMaxCores) (NumIdMask CoreBits) = 0 /\
  Z.land (CoreMask NMaxCores) (EpochMask CoreBits) = 0 /\
  Z.land (NumIdMask CoreBits) (EpochMask CoreBits) = 0 /\
  Z.lor (Z.lor (CoreMask NMaxCores) (NumIdMask CoreBits)) (EpochMask CoreBits)
    = UINT64_MAX.
Proof.
  intros Hp. pose proof Hp as [Hcb _].
  repeat split; apply Z.bits_inj'; intros i Hi;
    rewrite ?Z.bits_0, ?Z.land_spec, ?Z.lor_spec, ?testbit_UINT64_MAX,
      ?(testbit_CoreMask CoreBits), ?testbit_NumIdMask, ?testbit_EpochMask
      by assumption;
    cmp_cases; reflexivity.
Qed.

Lemma proto2_params_config CoreBits NMaxCores :
  proto2_params CoreBits NMaxCores -> proto2_config CoreBits NMaxCores.
Proof.
  intros Hp. pose proof Hp as [Hcb HN].
  pose proof (pow2_CoreBits_bound CoreBits Hcb).
  destruct (masks_partition _ _ Hp) as (H1 & _ & H3 & H4).
  unfold proto2_config, MakeTid_static_asserts, EpochShift, NumIdShift.
  repeat split; try assumption; lia.
Qed.

Lemma proto2_config_params CoreBits NMaxCores :
  proto2_config CoreBits NMaxCores -> proto2_params CoreBits NMaxCores.
Proof.
  unfold proto2_config, MakeTid_static_asserts, EpochShift, NumIdShift.
  intros (Hcb0 & Hes & [HN0 HN1] & Hcover & _ & _).
  assert (Hcb : 0 <= CoreBits < 37) by lia.
  pose proof (pow2_CoreBits_bound CoreBits Hcb) as Hpow.
  split; [exact Hcb|].
  assert (Hmask : CoreMask NMaxCores = NMaxCores - 1)
    by (unfold CoreMask, wrap64; apply Z.mod_small; lia).
  assert (Hones : NMaxCores - 1 = Z.ones CoreBits).
  { apply Z.bits_inj'. intros i Hi.
    destruct (Z.ltb_spec i CoreBits) as [Hlt|Hge].
    - rewrite Z.ones_spec_low by lia.
      assert (Hb : Z.testbit
        (Z.lor (Z.lor (CoreMask NMaxCores) (NumIdMask CoreBits)) (EpochMask CoreBits)) i
        = true) by (rewrite Hcover, testbit_UINT64_MAX by lia; lia).
      rewrite !Z.lor_spec, testbit_NumIdMask, testbit_EpochMask, Hmask in Hb
        by assumption.
      replace (CoreBits <=? i) with false in Hb by lia.
      replace (CoreBits + 27 <=? i) with false in Hb by lia.
      simpl in Hb. rewrite !orb_false_r in Hb. exact Hb.
    - rewrite Z.ones_spec_high by lia.
      apply (testbit_above _ CoreBits); lia. }
  rewrite Z.ones_equiv in Hones. lia.
Qed.

Lemma testbit_MakeTid CoreBits core_id num_id epoch_id i :
  0 <= i ->
  Z.testbit (MakeTid CoreBits core_id num_id epoch_id) i =
    Z.testbit core_id i
    || (i <? 64) && Z.testbit num_id (i - CoreBits)
    || (i <? 64) && Z.testbit epoch_id (i - (CoreBits + 27)).
Proof.
  intros Hi. unfold MakeTid, EpochShift, NumIdShift.
  rewrite !Z.lor_spec, !testbit_shl64 by lia. reflexivity.
Qed.

Lemma MakeTid_CoreId CoreBits NMaxCores core_id num_id epoch_id :
  proto2_params CoreBits NMaxCores ->
  0 <= core_id < NMaxCores ->
  CoreId NMaxCores (MakeTid CoreBits core_id num_id epoch_id) = core_id.
Proof.
  intros Hparams Hcore. pose proof Hparams as [Hcb HN].
  apply Z.bits_inj'. intros i Hi. unfold CoreId.
  rewrite Z.land_spec, (testbit_CoreMask CoreBits), testbit_MakeTid by assumption.
  destruct (Z.ltb_spec i CoreBits) as [Hlt|Hge].
  - rewrite (Z.testbit_neg_r num_id), (Z.testbit_neg_r epoch_id) by lia.
    rewrite !andb_false_r, !orb_false_r, andb_true_r. reflexivity.
  - rewrite andb_false_r. symmetry.
    apply (testbit_above _ CoreBits); lia.
Qed.

Lemma MakeTid_NumId CoreBits NMaxCores core_id num_id epoch_id :
  proto2_params CoreBits NMaxCores ->
  0 <= core_id < NMaxCores ->
  0 <= num_id < 2 ^ 27 ->
  NumId CoreBits (MakeTid CoreBits core_id num_id epoch_id) = num_id.
Proof.
  intros Hparams Hcore Hnum. pose proof Hparams as [Hcb HN].
  apply Z.bits_inj'. intros j Hj. unfold NumId, NumIdShift.
  rewrite testbit_shr64, Z.land_spec, testbit_NumIdMask, testbit_MakeTid by lia.
  replace (j + CoreBits - CoreBits) with j by lia.
  rewrite (testbit_above core_id CoreBits (j + CoreBits)) by lia.
  destruct (Z.ltb_spec j 27) as [Hlt|Hge].
  - rewrite (Z.testbit_neg_r epoch_id) by lia.
    replace (CoreBits <=? j + CoreBits) with true by lia.
    replace (j + CoreBits <? CoreBits + 27) with true by lia.
    replace (j + CoreBits <? 64) with true by lia.
    simpl. rewrite orb_false_r, andb_true_r. reflexivity.
  - replace (j + CoreBits <? CoreBits + 27) with false by lia.
    rewrite !andb_false_r. symmetry. apply (testbit_above _ 27); lia.
Qed.

Lemma MakeTid_EpochId CoreBits NMaxCores core_id num_id epoch_id :
  proto2_params CoreBits NMaxCores ->
  0 <= core_id < NMaxCores ->
  0 <= num_id < 2 ^ 27 ->
  0 <= epoch_id < 2 ^ (64 - CoreBits - 27) ->
  EpochId CoreBits (MakeTid CoreBits core_id num_id epoch_id) = epoch_id.
Proof.
  intros Hparams Hcore Hnum Hepoch. pose proof Hparams as [Hcb HN].
  apply Z.bits_inj'. intros j Hj. unfold EpochId, EpochShift, NumIdShift.
  rewrite testbit_shr64, Z.land_spec, testbit_EpochMask, testbit_MakeTid by lia.
  replace (j + (CoreBits + 27) - (CoreBits + 27)) with j by lia.
  rewrite (testbit_above core_id CoreBits (j + (CoreBits + 27))) by lia.
  rewrite (testbit_above num_id 27 (j + (CoreBits + 27) - CoreBits)) by lia.
  replace (CoreBits + 27 <=? j + (CoreBits + 27)) with true by lia.
  destruct (Z.ltb_spec (j + (CoreBits + 27)) 64) as [Hlt|Hge]; simpl.
  - rewrite andb_true_r. reflexivity.
  - rewrite ?andb_false_r. symmetry.
    apply (testbit_above _ (64 - CoreBits - 27)); lia.
Qed.

Lemma proto2_config_iff_params CoreBits NMaxCores :
  proto2_config CoreBits NMaxCores <-> proto2_params CoreBits NMaxCores.
Proof. split; [apply proto2_config_params | apply proto2_params_config]. Qed.

Lemma EpochMask_field CoreBits :
  0 <= CoreBits < 37 ->
  EpochMask CoreBits = Z.shiftl (Z.ones (37 - CoreBits)) (CoreBits + 27).
Proof.
  intros Hcb. apply Z.bits_inj'. intros i Hi.
  rewrite testbit_EpochMask, Z.shiftl_spec by lia.
  cmp_cases; simpl; symmetry; bit_range.
Qed.

Lemma NumIdMask_field CoreBits :
  0 <= CoreBits < 37 ->
  NumIdMask CoreBits = Z.shiftl (Z.ones 27) CoreBits.
Proof.
  intros Hcb. apply Z.bits_inj'. intros i Hi.
  rewrite testbit_NumIdMask, Z.shiftl_spec by lia.
  cmp_cases; simpl; symmetry; bit_range.
Qed.

(** What the code computes, for the parameters it admits
    ([NMaxCores = 2^CoreBits], [CoreBits < 37]) and every 64-bit TID [v]:
    [EpochId(v) = v >> (CoreBits + 27)], a value below [2^(37 - CoreBits)];
    [NumId(v)] is the 27-bit field [(v >> CoreBits) mod 2^27];
    [CoreId(v) = v mod 2^CoreBits]. The three fields are the low [CoreBits]
    bits, the 27 bits above them and the [37 - CoreBits] bits that remain;
    the epoch is [v >> 27] when there are no core bits. *)
Theorem tid_layout CoreBits NMaxCores v :
  proto2_params CoreBits NMaxCores ->
  uint64 v ->
  EpochMask CoreBits = Z.shiftl (Z.ones (37 - CoreBits)) (CoreBits + 27) /\
  NumIdMask CoreBits = Z.shiftl (Z.ones 27) CoreBits /\
  CoreMask NMaxCores = Z.ones CoreBits /\
  2 ^ CoreBits >= NMaxCores /\
  EpochId CoreBits v = Z.shiftr v (CoreBits + 27) /\
  0 <= EpochId CoreBits v < 2 ^ (37 - CoreBits) /\
  NumId CoreBits v = Z.shiftr v CoreBits mod 2 ^ 27 /\
  0 <= NumId CoreBits v < 2 ^ 27 /\
  CoreId NMaxCores v = v mod 2 ^ CoreBits /\
  (CoreBits = 0 -> EpochId CoreBits v = Z.shiftr v 27).
Proof.
  intros Hp Hv. pose proof Hp as [Hcb HN].
  pose proof (EpochId_shiftr CoreBits v Hcb Hv) as He.
  pose proof (NumId_field CoreBits v Hcb) as Hn.
  split; [apply EpochMask_field; exact Hcb|].
  split; [apply NumIdMask_field; exact Hcb|].
  split; [apply (CoreMask_ones CoreBits); exact Hp|].
  split; [lia|].
  split; [exact He|].
  split; [apply EpochId_range; assumption|].
  split; [exact Hn|].
  split; [rewrite Hn; apply Z.mod_pos_bound; lia|].
  split; [apply (CoreId_field CoreBits); exact Hp|].
  intros H0. rewrite He, H0. reflexivity.
Qed.

Lemma proto2_params_10 : proto2_params 10 1024.
Proof. split; [lia | reflexivity]. Qed.

Lemma tid_layout_witness :
  proto2_params 10 1024 /\ uint64 (2 ^ 40 + 2 ^ 12 + 5) /\
  EpochId 10 (2 ^ 40 + 2 ^ 12 + 5) = Z.shiftr (2 ^ 40 + 2 ^ 12 + 5) (10 + 27).
Proof.
  split; [exact proto2_params_10|].
  assert (Hv : uint64 (2 ^ 40 + 2 ^ 12 + 5)) by (unfold uint64; lia).
  split; [exact Hv|].
  exact (proj1 (proj2 (proj2 (proj2 (proj2
    (tid_layout 10 1024 (2 ^ 40 + 2 ^ 12 + 5) proto2_params_10 Hv)))))).
Defined.

Lemma EpochId_needs_the_core_bits CoreBits NMaxCores :
  proto2_params CoreBits NMaxCores -> 0 < CoreBits ->
  EpochId CoreBits (2 ^ 27) = 0 /\ Z.shiftr (2 ^ 27) 27 = 1.
Proof.
  intros [Hcb _] Hpos. split; [|reflexivity].
  rewrite EpochId_shiftr by (assumption || unfold uint64; lia).
  rewrite Z.shiftr_div_pow2 by lia. apply Z.div_small.
  split; [lia|]. apply Z.pow_lt_mono_r; lia.
Qed.


(** C10. For the parameters the code admits, every [core_id < NMaxCores],
    every [num_id < 2^27] and every [epoch_id < 2^(64 - CoreBits - 27)]:
    [CoreId], [NumId] and [EpochId] give back the three components of
    [MakeTid(core_id, num_id, epoch_id)]; and the masks [CoreMask],
    [NumIdMask] and [EpochMask] are pairwise disjoint and cover the 64
    bits. *)
Theorem MakeTid_roundtrip CoreBits NMaxCores core_id num_id epoch_id :
  proto2_params CoreBits NMaxCores ->
  0 <= core_id < NMaxCores ->
  0 <= num_id < 2 ^ 27 ->
  0 <= epoch_id < 2 ^ (64 - CoreBits - 27) ->
  (CoreId NMaxCores (MakeTid CoreBits core_id num_id epoch_id) = core_id /\
   NumId CoreBits (MakeTid CoreBits core_id num_id epoch_id) = num_id /\
   EpochId CoreBits (MakeTid CoreBits core_id num_id epoch_id) = epoch_id) /\
  Z.land (CoreMask NMaxCores) (NumIdMask CoreBits) = 0 /\
  Z.land (CoreMask NMaxCores) (EpochMask CoreBits) = 0 /\
  Z.land (NumIdMask CoreBits) (EpochMask CoreBits) = 0 /\
  Z.lor (Z.lor (CoreMask NMaxCores) (NumIdMask CoreBits)) (EpochMask CoreBits)
    = UINT64_MAX.
Proof.
  intros Hp Hc Hn He. split; [|apply masks_partition; exact Hp].
  split; [|split].
  - apply MakeTid_CoreId; assumption.
  - apply (MakeTid_NumId CoreBits NMaxCores); assumption.
  - apply (MakeTid_EpochId CoreBits NMaxCores); assumption.
Qed.

Lemma MakeTid_roundtrip_witness :
  proto2_params 10 1024 /\
  CoreId 1024 (MakeTid 10 3 5 7) = 3 /\
  NumId 10 (MakeTid 10 3 5 7) = 5 /\
  EpochId 10 (MakeTid 10 3 5 7) = 7.
Proof.
  split; [exact proto2_params_10|].
  apply (MakeTid_roundtrip 10 1024 3 5 7 proto2_params_10); simpl; lia.
Defined.
(** ** Key ranges *)

Lemma string_compare_refl (s : string) : String.compare s s = Eq.
Proof.
  pose proof (String.compare_antisym s s) as H.
  destruct (String.compare s s); simpl in H; congruence.
Qed.

Lemma string_le_refl s : key_range.string_le s s = true.
Proof. unfold key_range.string_le, String.leb. rewrite string_compare_refl. reflexivity. Qed.

Lemma string_lt_irrefl s : key_range.string_lt s s = false.
Proof. unfold key_range.string_lt, String.ltb. rewrite string_compare_refl. reflexivity. Qed.

Lemma string_gt_le s1 s2 :
  key_range.string_gt s1 s2 = negb (key_range.string_le s1 s2).
Proof.
  unfold key_range.string_gt, key_range.string_lt, key_range.string_le,
  String.ltb, String.leb.
  rewrite (String.compare_antisym s1 s2).
  destruct (String.compare s2 s1); reflexivity.
Qed.

Section KeyRangeFacts.

Import key_range.

Variable varkey : Type.
Variable varkey_of : string -> varkey.
Variable varkey_le : varkey -> varkey -> bool.
Variable varkey_lt : varkey -> varkey -> bool.

(** The two facts about the order of [varkey] that the bounds need. *)
Hypothesis varkey_le_refl : forall k, varkey_le k k = true.
Hypothesis varkey_lt_irrefl : forall k, varkey_lt k k = false.

Local Abbreviation key_in_range := (key_in_range varkey varkey_of varkey_le varkey_lt).

(** C8 (as amended). For every range [R] and every range [S],
    [R.contains(S)] holds exactly when [a <= S.a] and ([R] has no upper
    bound, or [S] has one and [b >= S.b]). For every key [k],
    [R.key_in_range(k)] holds exactly when [a <= k] and ([R] has no upper
    bound or [k < b]). So a key equal to the upper bound is never in the
    range, and a key equal to the lower bound is in the range exactly when
    the range has no upper bound or [a < b]: it is not in an empty range. *)
Theorem key_range_contains_key_in_range (R S : key_range_t) (k : varkey) :
  (contains R S = true <->
     string_le (a R) (a S) = true /\
     (has_b R = false \/ (has_b S = true /\ string_ge (b R) (b S) = true))) /\
  (key_in_range R k = true <->
     varkey_le (varkey_of (a R)) k = true /\
     (has_b R = false \/ varkey_lt k (varkey_of (b R)) = true)) /\
  (key_in_range R (varkey_of (a R)) = true <->
     has_b R = false \/ varkey_lt (varkey_of (a R)) (varkey_of (b R)) = true) /\
  (has_b R = true -> key_in_range R (varkey_of (b R)) = false).
Proof.
  split; [|split; [|split]].
  - unfold contains. rewrite string_gt_le.
    destruct (string_le (a R) (a S)), (has_b R), (has_b S),
      (string_ge (b R) (b S)); simpl; intuition discriminate.
  - unfold key_range.key_in_range.
    destruct (varkey_le (varkey_of (a R)) k), (has_b R),
      (varkey_lt k (varkey_of (b R))); simpl; intuition discriminate.
  - unfold key_range.key_in_range. rewrite varkey_le_refl.
    destruct (has_b R), (varkey_lt (varkey_of (a R)) (varkey_of (b R)));
      simpl; intuition discriminate.
  - intros Hb. unfold key_range.key_in_range.
    rewrite Hb, varkey_lt_irrefl. apply andb_false_r.
Qed.

End KeyRangeFacts.

Lemma key_range_contains_key_in_range_witness :
  key_range.key_in_range string id String.leb String.ltb
  (key_range.key_range_between "a"%string "c"%string) "a"%string = true /\
  key_range.key_in_range string id String.leb String.ltb
  (key_range.key_range_between "a"%string "c"%string) "c"%string = false.
Proof.
  pose proof (key_range_contains_key_in_range string id String.leb String.ltb
              string_le_refl string_lt_irrefl
              (key_range.key_range_between "a"%string "c"%string)
              (key_range.key_range_between "a"%string "c"%string) "a"%string) as (_ & _ & H3 & H4).
  split.
  - apply H3. right. reflexivity.
  - apply H4. reflexivity.
Defined.

(** The default-constructed range is empty: its lower bound is not in it. *)
Lemma key_in_range_lower_bound_of_empty_range :
  key_range.is_empty_range key_range.key_range_default = true /\
  key_range.key_in_range string id String.leb String.ltb
  key_range.key_range_default (key_range.a key_range.key_range_default) = false.
Proof. split; reflexivity. Qed.

(* ===================================================================== *)
(** * Part III: further properties                                        *)
(* ===================================================================== *)

(** ** More on the header word *)

Lemma flags_lor_bit v k :
  0 <= k < 4 ->
  Z.testbit (Z.lor v (Z.shiftl 1 k)) 0 = Z.testbit v 0 || (k =? 0) /\
  Z.testbit (Z.lor v (Z.shiftl 1 k)) 1 = Z.testbit v 1 || (k =? 1) /\
  Z.testbit (Z.lor v (Z.shiftl 1 k)) 2 = Z.testbit v 2 || (k =? 2) /\
  Z.testbit (Z.lor v (Z.shiftl 1 k)) 3 = Z.testbit v 3 || (k =? 3).
Proof.
  intros Hk. rewrite !Z.lor_spec, !testbit_bit by lia.
  rewrite (Z.eqb_sym 0 k), (Z.eqb_sym 1 k), (Z.eqb_sym 2 k), (Z.eqb_sym 3 k).
  repeat split.
Qed.

Lemma flags_land_not_bit v k :
  0 <= k < 4 ->
  Z.testbit (Z.land v (not64 (Z.shiftl 1 k))) 0 = Z.testbit v 0 && negb (k =? 0) /\
  Z.testbit (Z.land v (not64 (Z.shiftl 1 k))) 1 = Z.testbit v 1 && negb (k =? 1) /\
  Z.testbit (Z.land v (not64 (Z.shiftl 1 k))) 2 = Z.testbit v 2 && negb (k =? 2) /\
  Z.testbit (Z.land v (not64 (Z.shiftl 1 k))) 3 = Z.testbit v 3 && negb (k =? 3).
Proof.
  intros Hk. rewrite !Z.land_spec, !testbit_not64, !testbit_bit by lia.
  rewrite (Z.eqb_sym 0 k), (Z.eqb_sym 1 k), (Z.eqb_sym 2 k), (Z.eqb_sym 3 k).
  simpl. rewrite !andb_true_r. repeat split.
Qed.

Lemma uint64_lor_bit v k : uint64 v -> 0 <= k < 4 -> uint64 (Z.lor v (Z.shiftl 1 k)).
Proof.
  intros Hv Hk.
  assert (H : Z.lor v (Z.shiftl 1 k) = wrap64 (Z.lor v (Z.shiftl 1 k))).
  { apply Z.bits_inj'. intros i Hi.
    rewrite testbit_wrap64, Z.lor_spec, testbit_bit by lia.
    destruct (Z.ltb_spec i 64); [reflexivity|]. simpl.
    rewrite (uint64_testbit_high v i) by (assumption || lia). simpl. lia. }
  rewrite H. apply Z.mod_pos_bound. lia.
Qed.

Lemma uint64_land v m : uint64 v -> uint64 (Z.land v m).
Proof.
  intros Hv.
  assert (H : Z.land v m = wrap64 (Z.land v m)).
  { apply Z.bits_inj'. intros i Hi.
    rewrite testbit_wrap64, Z.land_spec.
    destruct (Z.ltb_spec i 64); [reflexivity|]. simpl.
    rewrite (uint64_testbit_high v i) by (assumption || lia). reflexivity. }
  rewrite H. apply Z.mod_pos_bound. lia.
Qed.

(** A header is the same header as another one when it agrees with it on the
    five fields. *)
Lemma header_fields_inj v1 v2 :
  uint64 v1 -> uint64 v2 ->
  IsLocked v1 = IsLocked v2 -> IsDeleting v1 = IsDeleting v2 ->
  IsEnqueued v1 = IsEnqueued v2 -> IsLatest v1 = IsLatest v2 ->
  Version v1 = Version v2 ->
  v1 = v2.
Proof.
  intros H1 H2 Hl Hd He Hla Hv.
  rewrite !IsLocked_testbit in Hl. rewrite !IsDeleting_testbit in Hd.
  rewrite !IsEnqueued_testbit in He. rewrite !IsLatest_testbit in Hla.
  apply Z.bits_inj'. intros i Hi.
  destruct (Z.ltb_spec i 4) as [Hlow|Hhigh].
  - assert (Hcase : i = 0 \/ i = 1 \/ i = 2 \/ i = 3) by lia.
    destruct Hcase as [ -> | [ -> | [ -> | -> ] ] ]; assumption.
  - destruct (Z.ltb_spec i 64) as [Hin|Hout].
    + assert (Hb : Z.testbit (Version v1) (i - 4) = Z.testbit (Version v2) (i - 4))
        by (rewrite Hv; reflexivity).
      rewrite !testbit_Version in Hb by lia.
      replace (i - 4 + 4) with i in Hb by lia.
      replace (i <? 64) with true in Hb by lia.
      rewrite !andb_true_r in Hb. exact Hb.
    + rewrite !uint64_testbit_high by (assumption || lia). reflexivity.
Qed.

Lemma set_latest_word chk b v v' :
  set_latest chk b v = Ok v' ->
  v' = if b then Z.lor v HDR_LATEST_MASK else Z.land v (not64 HDR_LATEST_MASK).
Proof.
  unfold set_latest, INVARIANT.
  destruct chk, (IsLocked v), b; simpl; congruence.
Qed.

Lemma set_enqueued_word chk e v v' :
  set_enqueued chk e v = Ok v' ->
  v' = if e then Z.lor v HDR_ENQUEUED_MASK else Z.land v (not64 HDR_ENQUEUED_MASK).
Proof.
  unfold set_enqueued, INVARIANT.
  destruct chk, (IsLocked v), (IsDeleting v), e; simpl; congruence.
Qed.

Lemma mark_deleting_word chk v v' :
  mark_deleting chk v = Ok v' -> v' = Z.lor v HDR_DELETING_MASK.
Proof.
  unfold mark_deleting, INVARIANT.
  destruct chk, (IsLocked v), (IsEnqueued v), (IsDeleting v); simpl; congruence.
Qed.


Lemma lor_flag_fields v k :
  0 <= k < 4 ->
  IsLocked (Z.lor v (Z.shiftl 1 k)) = IsLocked v || (k =? 0) /\
  IsDeleting (Z.lor v (Z.shiftl 1 k)) = IsDeleting v || (k =? 1) /\
  IsEnqueued (Z.lor v (Z.shiftl 1 k)) = IsEnqueued v || (k =? 2) /\
  IsLatest (Z.lor v (Z.shiftl 1 k)) = IsLatest v || (k =? 3) /\
  Version (Z.lor v (Z.shiftl 1 k)) = Version v.
Proof.
  intros Hk. rewrite !IsLocked_testbit, !IsDeleting_testbit,
    !IsEnqueued_testbit, !IsLatest_testbit, Version_lor_flag by lia.
  destruct (flags_lor_bit v k Hk) as (H0 & H1 & H2 & H3). auto.
Qed.

Lemma land_not_flag_fields v k :
  0 <= k < 4 ->
  IsLocked (Z.land v (not64 (Z.shiftl 1 k))) = IsLocked v && negb (k =? 0) /\
  IsDeleting (Z.land v (not64 (Z.shiftl 1 k))) = IsDeleting v && negb (k =? 1) /\
  IsEnqueued (Z.land v (not64 (Z.shiftl 1 k))) = IsEnqueued v && negb (k =? 2) /\
  IsLatest (Z.land v (not64 (Z.shiftl 1 k))) = IsLatest v && negb (k =? 3) /\
  Version (Z.land v (not64 (Z.shiftl 1 k))) = Version v.
Proof.
  intros Hk. rewrite !IsLocked_testbit, !IsDeleting_testbit,
    !IsEnqueued_testbit, !IsLatest_testbit, Version_land_not_flag by lia.
  destruct (flags_land_not_bit v k Hk) as (H0 & H1 & H2 & H3). auto.
Qed.

Lemma lock_unlocked_fields fuel v :
  IsLocked v = false ->
  exists v',
    lock (S fuel) v = Ok v' /\
    IsLocked v' = true /\ IsDeleting v' = IsDeleting v /\
    IsEnqueued v' = IsEnqueued v /\ IsLatest v' = IsLatest v /\
    Version v' = Version v /\ (uint64 v -> uint64 v').
Proof.
  intros Hl. exists (Z.lor v HDR_LOCKED_MASK).
  split; [apply lock_unlocked; exact Hl|].
  change HDR_LOCKED_MASK with (Z.shiftl 1 0).
  destruct (lor_flag_fields v 0 ltac:(lia)) as (H0 & H1 & H2 & H3 & H4).
  rewrite H0, H1, H2, H3, H4. simpl. rewrite !orb_false_r, orb_true_r.
  do 5 (split; [reflexivity|]).
  intros Hv. apply uint64_lor_bit; [exact Hv | lia].
Qed.

(** X1. [lock()] on an unlocked header returns (with any fuel) the header
    with LOCKED set and with DELETING, ENQUEUED, LATEST and VERSION as they
    were; on a header that is locked already it never returns. *)
Theorem lock_sets_only_the_lock_bit v :
  (IsLocked v = false ->
   forall fuel, exists v',
     lock (S fuel) v = Ok v' /\
     IsLocked v' = true /\ IsDeleting v' = IsDeleting v /\
     IsEnqueued v' = IsEnqueued v /\ IsLatest v' = IsLatest v /\
     Version v' = Version v /\ (uint64 v -> uint64 v')) /\
  (IsLocked v = true -> forall fuel, lock fuel v = Failed OutOfFuel).
Proof.
  split.
  - intros Hl fuel. apply lock_unlocked_fields. exact Hl.
  - intros Hl fuel. apply lock_locked. exact Hl.
Qed.

Lemma lock_sets_only_the_lock_bit_witness :
  lock 1 8 = Ok 9 /\ lock 5 9 = Failed OutOfFuel.
Proof.
  split.
  - destruct (proj1 (lock_sets_only_the_lock_bit 8) eq_refl 0%nat) as (v' & H & _).
    rewrite H. f_equal. vm_compute in H. congruence.
  - exact (proj2 (lock_sets_only_the_lock_bit 9) eq_refl 5%nat).
Defined.

(** X2. A call of [set_latest], [set_enqueued] or [mark_deleting] that
    returns has set its own flag to the requested value (DELETING to true)
    and has left the three other flags and VERSION as they were. With
    CHECK_INVARIANTS each of them fails its INVARIANT on an unlocked
    header. *)
Theorem flag_setters_change_one_bit chk v v' :
  (forall latest, set_latest chk latest v = Ok v' ->
     IsLatest v' = latest /\ IsLocked v' = IsLocked v /\
     IsDeleting v' = IsDeleting v /\ IsEnqueued v' = IsEnqueued v /\
     Version v' = Version v) /\
  (forall enqueued, set_enqueued chk enqueued v = Ok v' ->
     IsEnqueued v' = enqueued /\ IsLocked v' = IsLocked v /\
     IsDeleting v' = IsDeleting v /\ IsLatest v' = IsLatest v /\
     Version v' = Version v) /\
  (mark_deleting chk v = Ok v' ->
     IsDeleting v' = true /\ IsLocked v' = IsLocked v /\
     IsEnqueued v' = IsEnqueued v /\ IsLatest v' = IsLatest v /\
     Version v' = Version v) /\
  (IsLocked v = false ->
     (forall latest, set_latest true latest v = Failed InvariantViolated) /\
     (forall enqueued, set_enqueued true enqueued v = Failed InvariantViolated) /\
     mark_deleting true v = Failed InvariantViolated).
Proof.
  split; [|split; [|split]].
  - intros b H. apply set_latest_word in H. subst v'.
    unfold HDR_LATEST_MASK, HDR_LATEST_SHIFT. destruct b.
    + destruct (lor_flag_fields v 3 ltac:(lia)) as (H0 & H1 & H2 & H3 & H4).
      rewrite H0, H1, H2, H3, H4. simpl. rewrite !orb_false_r, orb_true_r. auto.
    + destruct (land_not_flag_fields v 3 ltac:(lia)) as (H0 & H1 & H2 & H3 & H4).
      rewrite H0, H1, H2, H3, H4. simpl. rewrite !andb_true_r, andb_false_r. auto.
  - intros e H. apply set_enqueued_word in H. subst v'.
    unfold HDR_ENQUEUED_MASK, HDR_ENQUEUED_SHIFT. destruct e.
    + destruct (lor_flag_fields v 2 ltac:(lia)) as (H0 & H1 & H2 & H3 & H4).
      rewrite H0, H1, H2, H3, H4. simpl. rewrite !orb_false_r, orb_true_r. auto.
    + destruct (land_not_flag_fields v 2 ltac:(lia)) as (H0 & H1 & H2 & H3 & H4).
      rewrite H0, H1, H2, H3, H4. simpl. rewrite !andb_true_r, andb_false_r. auto.
  - intros H. apply mark_deleting_word in H. subst v'.
    unfold HDR_DELETING_MASK, HDR_DELETING_SHIFT.
    destruct (lor_flag_fields v 1 ltac:(lia)) as (H0 & H1 & H2 & H3 & H4).
    rewrite H0, H1, H2, H3, H4. simpl. rewrite !orb_false_r, orb_true_r. auto.
  - intros Hl. unfold set_latest, set_enqueued, mark_deleting, INVARIANT.
    rewrite Hl. repeat split.
Qed.

Lemma flag_setters_change_one_bit_witness :
  set_latest true false 9 = Ok 1 /\ IsLatest 1 = false /\ Version 1 = Version 9 /\
  set_enqueued true true 8 = Failed InvariantViolated.
Proof.
  pose proof (flag_setters_change_one_bit true 9 1) as (H1 & _).
  destruct (H1 false eq_refl) as (Ha & _ & _ & _ & Hb).
  split; [reflexivity|]. split; [exact Ha|]. split; [exact Hb|].
  pose proof (flag_setters_change_one_bit true 8 8) as (_ & _ & _ & H4).
  exact (proj1 (proj2 (H4 eq_refl)) true).
Defined.

Lemma lock_unlock_cycles_fields chk fuel k :
  forall v, IsLocked v = false ->
  exists v',
    lock_unlock_cycles chk (S fuel) k v = Ok v' /\
    IsLocked v' = false /\ IsDeleting v' = IsDeleting v /\
    IsEnqueued v' = IsEnqueued v /\ IsLatest v' = IsLatest v /\
    Version v' = (Version v + Z.of_nat k) mod 2 ^ 60 /\
    (uint64 v -> uint64 v').
Proof.
  induction k as [|k IH]; intros v Hl.
  - exists v. split; [reflexivity|]. do 4 (split; [auto|]).
    split; [|auto]. rewrite Z.add_0_r. symmetry. apply Z.mod_small, Version_range.
  - destruct (lock_unlocked_fields fuel v Hl)
      as (v1 & Hlock & Hl1 & Hd1 & He1 & Hla1 & Hv1 & _).
    destruct (flags_unlock_word v1) as (Hl2 & Hd2 & He2 & Hla2).
    destruct (IH (unlock_word v1) Hl2) as (v' & Hrun & Hl' & Hd' & He' & Hla' & Hv' & Hu').
    exists v'. split.
    + cbn [lock_unlock_cycles]. rewrite Hlock. cbn [mbind result_bind].
      rewrite (unlock_locked chk v1 Hl1). cbn [mbind result_bind]. exact Hrun.
    + split; [exact Hl'|]. split; [congruence|]. split; [congruence|].
      split; [congruence|]. split.
      * rewrite Hv', Version_unlock_word, Hv1, Z.add_mod_idemp_l by lia.
        f_equal. lia.
      * intros _. apply Hu'. apply unlock_word_uint64.
Qed.

Lemma add_mod_fixed a k m :
  0 <= a < m -> ((a + k) mod m = a <-> k mod m = 0).
Proof.
  intros Ha. split; intros H.
  - pose proof (Z.div_mod (a + k) m ltac:(lia)) as Hdm. rewrite H in Hdm.
    assert (Hk : k = (a + k) / m * m) by lia.
    rewrite Hk. apply Z.mod_mul. lia.
  - pose proof (Z.div_mod k m ltac:(lia)) as Hdm. rewrite H in Hdm.
    replace (a + k) with (a + k / m * m) by lia.
    rewrite Z.mod_add by lia. apply Z.mod_small. exact Ha.
Qed.

(** X3. After [k] rounds of [lock(); unlock();] on an unlocked 64-bit
    header, VERSION is the old VERSION plus [k] modulo 2^60, and
    [check_version] against the header captured before the rounds succeeds
    exactly when [k] is a multiple of 2^60: an optimistic reader misses no
    fewer than 2^60 intervening lock cycles. *)
Theorem header_repeats_every_2_60_cycles chk fuel k v :
  uint64 v -> IsLocked v = false ->
  exists v',
    lock_unlock_cycles chk (S fuel) k v = Ok v' /\
    Version v' = (Version v + Z.of_nat k) mod 2 ^ 60 /\
    (check_version v' v = true <-> Z.of_nat k mod 2 ^ 60 = 0).
Proof.
  intros Hu Hl.
  destruct (lock_unlock_cycles_fields chk fuel k v Hl)
    as (v' & Hrun & Hl' & Hd' & He' & Hla' & Hv' & Hu').
  exists v'. split; [exact Hrun|]. split; [exact Hv'|].
  pose proof (Version_range v) as Hr.
  unfold check_version. rewrite Z.eqb_eq. split.
  - intros ->. apply (add_mod_fixed (Version v)); [exact Hr|]. symmetry. exact Hv'.
  - intros Hk. apply header_fields_inj; try congruence; auto.
    rewrite Hv'. apply add_mod_fixed; assumption.
Qed.

Lemma header_repeats_every_2_60_cycles_witness :
  exists v', lock_unlock_cycles true 1 3 8 = Ok v' /\ check_version v' 8 = false.
Proof.
  destruct (header_repeats_every_2_60_cycles true 0 3 8) as (v' & Hrun & _ & Hiff).
  - unfold uint64. lia.
  - reflexivity.
  - exists v'. split; [exact Hrun|].
    destruct (check_version v' 8) eqn:Hc; [|reflexivity].
    pose proof (proj1 Hiff eq_refl) as Hk. vm_compute in Hk. discriminate.
Defined.

(** ** The write path: what a call that returns has done *)

Lemma memcpy_inv dst src n buf :
  memcpy dst src n = Ok buf ->
  0 <= n <= Z.of_nat (length src) /\ n <= Z.of_nat (length dst) /\
  buf = take (Z.to_nat n) src ++ drop (Z.to_nat n) dst.
Proof.
  unfold memcpy.
  destruct (Z.leb_spec 0 n), (Z.leb_spec n (Z.of_nat (length src))),
    (Z.leb_spec n (Z.of_nat (length dst))); simpl; try discriminate.
  intros [= <-]. repeat split; lia.
Qed.

Lemma INVARIANT_inv chk e u :
  INVARIANT chk e = Ok u -> chk = true -> e = true.
Proof. intros H ->. unfold INVARIANT in H. destruct e; [reflexivity|discriminate]. Qed.

(** Inversion of a successful run, innermost call first. *)
Ltac invert_run H :=
  unfold mbind, result_bind in H;
  repeat match type of H with
  | context [match ?m with _ => _ end] =>
      lazymatch m with
      | context [match _ with _ => _ end] => fail
      | _ => let E := fresh "E" in destruct m eqn:E; try discriminate H
      end
  end.

Lemma alloc_inv chk h v value sz nx (sl : bool) h' q :
  alloc chk h v value sz nx sl = Ok (h', q) ->
  q = fresh (dom h) /\
  0 <= sz <= Z.of_nat (length value) /\
  h' = <[q := mk_logical_node (if sl then HDR_LATEST_MASK else 0) nx v (wrap32 sz)
                (wrap32 (alloc_capacity sz))
                (take (Z.to_nat sz) value
                   ++ drop (Z.to_nat sz) (uninitialised (alloc_capacity sz)))]> h.
Proof.
  unfold alloc, logical_node_ctor. fold (alloc_capacity sz). intros H.
  invert_run H; injection H as <- <-;
    match goal with
    | E : memcpy _ _ _ = Ok _ |- _ => apply memcpy_inv in E as (Hb & _ & ->)
    end;
    repeat split; lia.
Qed.

Lemma set_latest_false_inv chk v v' :
  set_latest chk false v = Ok v' -> v' = Z.land v (not64 HDR_LATEST_MASK).
Proof.
  unfold set_latest, INVARIANT.
  destruct chk, (IsLocked v); simpl; congruence.
Qed.

(** Everything a returning call of [write_record_at] has done. *)
Lemma write_record_at_inv chk CoreBits gle h this txn t r sz h' growth rep :
  write_record_at chk CoreBits gle h this txn t r sz = Ok (h', (growth, rep)) ->
  exists n,
    h !! this = Some n /\
    can_overwrite_record_tid chk CoreBits gle txn (version n) t = Ok (negb growth) /\
    (chk = true -> is_locked n = true /\ is_latest n = true) /\
    0 <= sz <= Z.of_nat (length r) /\
    ((rep = None /\ sz <= alloc_size n /\ sz <= Z.of_nat (length (value_start n)) /\
      h' = <[this := mk_logical_node (hdr n)
                       (if growth then Some (fresh (dom h)) else next n)
                       t (wrap32 sz) (alloc_size n)
                       (take (Z.to_nat sz) r ++ drop (Z.to_nat sz) (value_start n))]>
             (if growth then <[fresh (dom h) := spilled n sz]> h else h))
     \/
     (rep = Some (fresh (dom h)) /\ alloc_size n < sz /\
      h' = <[fresh (dom h) :=
               replacement (if growth then Some this else next n) t r sz]>
             (<[this := displaced n]> h))).
Proof.
  intros H. unfold write_record_at, deref in H.
  destruct (h !! this) as [n|] eqn:Hn; [|discriminate H].
  exists n. split; [reflexivity|].
  assert (Hdom : dom (<[this := displaced n]> h) = dom h)
    by (apply dom_insert_lookup_L; rewrite Hn; eauto).
  unfold displaced in Hdom.
  invert_run H.
  all: injection H as <- <- <-.
  all: repeat match goal with
       | E : memcpy _ _ _ = Ok _ |- _ => apply memcpy_inv in E as (? & ? & ->)
       | E : alloc _ _ _ _ _ _ _ = Ok _ |- _ => apply alloc_inv in E as (-> & ? & ->)
       | E : set_latest _ false _ = Ok _ |- _ => apply set_latest_false_inv in E as ->
       | E : (_ <=? _) = true |- _ => apply Z.leb_le in E
       | E : (_ <=? _) = false |- _ => apply Z.leb_gt in E
       end.
  all: rewrite ?Hdom.
  all: split; [reflexivity|].
  all: split; [intros Hchk; split; eapply INVARIANT_inv; eassumption|].
  all: split; [lia|].
  all: first
         [ left; split; [reflexivity|]; split; [lia|]; split; [lia|]; reflexivity
         | right; split; [reflexivity|]; split; [lia|]; reflexivity ].
Qed.

Lemma alloc_Ok chk h v value sz nx (sl : bool) :
  0 <= sz < 2 ^ 32 -> sz <= Z.of_nat (length value) ->
  alloc chk h v value sz nx sl =
    Ok (<[fresh (dom h) :=
            mk_logical_node (if sl then HDR_LATEST_MASK else 0) nx v (wrap32 sz)
              (wrap32 (alloc_capacity sz))
              (take (Z.to_nat sz) value
                 ++ drop (Z.to_nat sz) (uninitialised (alloc_capacity sz)))]> h,
        fresh (dom h)).
Proof.
  intros Hsz Hlen.
  pose proof (alloc_capacity_bounds sz Hsz) as Hb.
  unfold alloc, logical_node_ctor. fold (alloc_capacity sz).
  replace (sz <=? alloc_capacity sz) with true by lia.
  rewrite INVARIANT_true. cbn [mbind result_bind].
  rewrite memcpy_Ok by (rewrite ?length_uninitialised; lia).
  reflexivity.
Qed.

Lemma set_latest_false_locked chk v :
  IsLocked v = true ->
  set_latest chk false v = Ok (Z.land v (not64 HDR_LATEST_MASK)).
Proof. intros Hl. unfold set_latest. rewrite Hl, INVARIANT_true. reflexivity. Qed.

Lemma write_record_at_returns chk CoreBits gle h this n txn t r sz ow :
  h !! this = Some n ->
  is_locked n = true -> is_latest n = true -> node_wf n ->
  can_overwrite_record_tid chk CoreBits gle txn (version n) t = Ok ow ->
  0 <= sz < 2 ^ 32 -> sz <= Z.of_nat (length r) ->
  exists h' rep,
    write_record_at chk CoreBits gle h this txn t r sz = Ok (h', (negb ow, rep)).
Proof.
  intros Hn Hlock Hlat (Hlen & Hsize & Hcap) Hcan Hsz Hr.
  unfold write_record_at, deref. rewrite Hn. cbn [mbind result_bind].
  rewrite Hlock, Hlat, !INVARIANT_true. cbn [mbind result_bind].
  rewrite Hcan. cbn [mbind result_bind].
  unfold is_locked in Hlock.
  destruct ow, (Z.leb_spec sz (alloc_size n)).
  - rewrite memcpy_Ok by lia. cbn [mbind result_bind]. eauto.
  - rewrite set_latest_false_locked by exact Hlock. cbn [mbind result_bind].
    rewrite alloc_Ok by lia. cbn [mbind result_bind].
    unfold deref. rewrite lookup_insert_eq. cbn [mbind result_bind].
    change (is_latest _) with true. rewrite INVARIANT_true. cbn [mbind result_bind].
    eauto.
  - rewrite alloc_Ok by lia. cbn [mbind result_bind].
    unfold deref. rewrite lookup_insert_eq. cbn [mbind result_bind].
    change (is_latest _) with false. cbn [negb].
    rewrite INVARIANT_true. cbn [mbind result_bind].
    rewrite memcpy_Ok by lia. cbn [mbind result_bind]. eauto.
  - rewrite set_latest_false_locked by exact Hlock. cbn [mbind result_bind].
    rewrite alloc_Ok by lia. cbn [mbind result_bind].
    unfold deref. rewrite lookup_insert_eq. cbn [mbind result_bind].
    change (is_latest _) with true. rewrite INVARIANT_true. cbn [mbind result_bind].
    eauto.
Qed.

Lemma lookup_fresh (h : heap) : h !! fresh (dom h) = None.
Proof. apply not_elem_of_dom. apply is_fresh. Qed.

Lemma fresh_ne (h : heap) p n : h !! p = Some n -> fresh (dom h) <> p.
Proof. intros Hp Heq. rewrite <- Heq, lookup_fresh in Hp. discriminate. Qed.

Lemma displaced_fields n :
  is_latest (displaced n) = false /\ is_locked (displaced n) = is_locked n /\
  next (displaced n) = next n /\ version (displaced n) = version n /\
  size (displaced n) = size n /\ payload (displaced n) = payload n.
Proof.
  unfold is_latest, is_locked, displaced, set_hdr, payload. cbn.
  unfold HDR_LATEST_MASK, HDR_LATEST_SHIFT.
  destruct (land_not_flag_fields (hdr n) 3 ltac:(lia)) as (H0 & _ & _ & H3 & _).
  rewrite H0, H3. simpl. rewrite andb_true_r, andb_false_r. repeat split.
Qed.

Lemma replacement_fields nx t r sz :
  0 <= sz < 2 ^ 32 -> sz <= Z.of_nat (length r) ->
  is_latest (replacement nx t r sz) = true /\
  is_locked (replacement nx t r sz) = false /\
  is_deleting (replacement nx t r sz) = false /\
  is_enqueued (replacement nx t r sz) = false /\
  next (replacement nx t r sz) = nx /\
  version (replacement nx t r sz) = t /\
  size (replacement nx t r sz) = sz /\
  payload (replacement nx t r sz) = take (Z.to_nat sz) r.
Proof.
  intros Hsz Hr.
  assert (Hw : wrap32 sz = sz) by (unfold wrap32; apply Z.mod_small; lia).
  do 6 (split; [reflexivity|]). split; [exact Hw|].
  unfold payload, replacement. cbn [size value_start]. rewrite Hw.
  apply take_app_length'. rewrite length_take. lia.
Qed.

(** X8. On a locked LATEST cell with a well-formed buffer, for a record of
    [sz < 2^32] bytes that [r] really holds, [write_record_at] returns
    once the protocol has answered [ow] to [can_overwrite_record_tid]: the
    growth flag is the negation of [ow], and a replacement is returned
    exactly when [sz] exceeds [alloc_size]. *)
Theorem write_record_at_returns_and_flags chk CoreBits gle h this n txn t r sz ow :
  h !! this = Some n ->
  is_locked n = true -> is_latest n = true -> node_wf n ->
  can_overwrite_record_tid chk CoreBits gle txn (version n) t = Ok ow ->
  0 <= sz < 2 ^ 32 -> sz <= Z.of_nat (length r) ->
  exists h' rep,
    write_record_at chk CoreBits gle h this txn t r sz = Ok (h', (negb ow, rep)) /\
    (rep = None <-> sz <= alloc_size n).
Proof.
  intros Hn Hlock Hlat Hwf Hcan Hsz Hr.
  destruct (write_record_at_returns chk CoreBits gle h this n txn t r sz ow)
    as (h' & rep & Hw); try assumption.
  exists h', rep. split; [exact Hw|].
  apply write_record_at_inv in Hw as (n' & Hn' & _ & _ & _ & Hcase).
  assert (n' = n) by congruence. subst n'.
  destruct Hcase as [(-> & Hle & _) | (-> & Hgt & _)].
  - tauto.
  - split; [discriminate | lia].
Qed.

(** X9. A call of [write_record_at] that returns has left every other
    allocated cell as it was and [this] allocated; the only address it can
    have allocated is one that was free, and it did so only when it reports
    growth or returns that address as the replacement; an in-place overwrite
    allocates nothing. *)
Theorem write_record_at_frame chk CoreBits gle h this txn t r sz h' growth rep :
  write_record_at chk CoreBits gle h this txn t r sz = Ok (h', (growth, rep)) ->
  is_Some (h !! this) /\ is_Some (h' !! this) /\
  (forall p, p <> this -> is_Some (h !! p) -> h' !! p = h !! p) /\
  (forall p, h !! p = None -> is_Some (h' !! p) ->
     p = fresh (dom h) /\ (growth = true \/ rep = Some p)) /\
  (growth = false -> rep = None -> dom h' = dom h) /\
  (forall q, rep = Some q -> h !! q = None /\ q <> this /\ is_Some (h' !! q)).
Proof.
  intros Hw. apply write_record_at_inv in Hw as (n & Hn & _ & _ & _ & Hcase).
  pose proof (fresh_ne h this n Hn) as Hfr.
  pose proof (lookup_fresh h) as Hnone.
  split; [rewrite Hn; eauto|].
  destruct Hcase as [(-> & _ & _ & ->) | (-> & _ & ->)].
  - split; [rewrite lookup_insert_eq; eauto|].
    split; [|split; [|split]].
    + intros p Hp Hsome. rewrite lookup_insert_ne by congruence.
      destruct growth; [|reflexivity].
      rewrite lookup_insert_ne; [reflexivity|].
      intros <-. rewrite Hnone in Hsome. destruct Hsome; discriminate.
    + intros p Hp Hsome.
      rewrite lookup_insert_ne in Hsome by (intros <-; congruence).
      destruct growth.
      * destruct (decide (fresh (dom h) = p)) as [<-|Hne]; [auto|].
        rewrite lookup_insert_ne in Hsome by exact Hne.
        rewrite Hp in Hsome. destruct Hsome; discriminate.
      * rewrite Hp in Hsome. destruct Hsome; discriminate.
    + intros -> _. apply dom_insert_lookup_L. rewrite Hn. eauto.
    + discriminate.
  - split; [rewrite lookup_insert_ne, lookup_insert_eq by exact Hfr; eauto|].
    split; [|split; [|split]].
    + intros p Hp Hsome. rewrite lookup_insert_ne.
      * rewrite lookup_insert_ne by congruence. reflexivity.
      * intros <-. rewrite Hnone in Hsome. destruct Hsome; discriminate.
    + intros p Hp Hsome.
      destruct (decide (fresh (dom h) = p)) as [<-|Hne]; [auto|].
      rewrite lookup_insert_ne in Hsome by exact Hne.
      rewrite lookup_insert_ne in Hsome by (intros <-; congruence).
      rewrite Hp in Hsome. destruct Hsome; discriminate.
    + discriminate.
    + intros q [= <-]. split; [exact Hnone|]. split; [exact Hfr|].
      rewrite lookup_insert_eq. eauto.
Qed.

Lemma take_write_payload (r buf : list byte) sz :
  0 <= sz <= Z.of_nat (length r) ->
  take (Z.to_nat sz) (take (Z.to_nat sz) r ++ drop (Z.to_nat sz) buf)
    = take (Z.to_nat sz) r.
Proof. intros Hsz. apply take_app_length'. rewrite length_take. lia. Qed.

(** The new head of the chain after a call that returns. *)
Lemma write_record_at_head chk CoreBits gle h this n txn t r sz h' growth rep :
  write_record_at chk CoreBits gle h this txn t r sz = Ok (h', (growth, rep)) ->
  h !! this = Some n -> sz < 2 ^ 32 ->
  exists c,
    h' !! new_head this rep = Some c /\
    version c = t /\ size c = sz /\ payload c = take (Z.to_nat sz) r /\
    is_latest c = match rep with Some _ => true | None => is_latest n end /\
    is_locked c = match rep with Some _ => false | None => is_locked n end /\
    next c = (if growth
              then match rep with
                   | Some _ => Some this
                   | None => Some (fresh (dom h))
                   end
              else next n).
Proof.
  intros Hw Hn Hsz.
  apply write_record_at_inv in Hw as (n' & Hn' & _ & _ & Hr & Hcase).
  assert (n' = n) by congruence. subst n'.
  assert (Hw32 : wrap32 sz = sz) by (unfold wrap32; apply Z.mod_small; lia).
  destruct Hcase as [(-> & _ & _ & ->) | (-> & _ & ->)]; unfold new_head; cbn [default].
  - rewrite lookup_insert_eq. eexists. split; [reflexivity|].
    unfold payload, is_latest, is_locked. cbn. rewrite Hw32.
    rewrite take_write_payload by lia.
    destruct growth; repeat split.
  - rewrite lookup_insert_eq. eexists. split; [reflexivity|].
    destruct (replacement_fields (if growth then Some this else next n) t r sz)
      as (H1 & H2 & _ & _ & H5 & H6 & H7 & H8); [lia | lia |].
    rewrite H1, H2, H5, H6, H7, H8. destruct growth; repeat split.
Qed.

(** The cell in place after a call that returned a replacement. *)
Lemma write_record_at_displaced chk CoreBits gle h this n txn t r sz h' growth q :
  write_record_at chk CoreBits gle h this txn t r sz = Ok (h', (growth, Some q)) ->
  h !! this = Some n ->
  h' !! this = Some (displaced n) /\ q <> this.
Proof.
  intros Hw Hn.
  apply write_record_at_inv in Hw as (n' & Hn' & _ & _ & _ & Hcase).
  assert (n' = n) by congruence. subst n'.
  destruct Hcase as [(Hrep & _) | (Hrep & _ & ->)]; [discriminate|].
  injection Hrep as ->. pose proof (fresh_ne h this n Hn) as Hfr.
  split; [|exact Hfr].
  rewrite lookup_insert_ne by exact Hfr. apply lookup_insert_eq.
Qed.

(** X10. After a call of [write_record_at] on a locked LATEST cell, [this]
    is still locked, and exactly one of [this] and the replacement carries
    LATEST: [this] when no replacement is returned, the replacement (which
    is unlocked) otherwise. *)
Theorem write_record_at_hands_over_latest
    chk CoreBits gle h this n txn t r sz h' growth rep :
  write_record_at chk CoreBits gle h this txn t r sz = Ok (h', (growth, rep)) ->
  h !! this = Some n -> is_locked n = true -> is_latest n = true ->
  sz < 2 ^ 32 ->
  exists c,
    h' !! this = Some c /\ is_locked c = true /\
    match rep with
    | None => is_latest c = true
    | Some q =>
        is_latest c = false /\
        exists cq, h' !! q = Some cq /\ is_latest cq = true /\ is_locked cq = false
    end.
Proof.
  intros Hw Hn Hlock Hlat Hsz.
  destruct (write_record_at_head _ _ _ _ _ _ _ _ _ _ _ _ _ Hw Hn Hsz)
    as (c & Hc & _ & _ & _ & Hcl & Hck & _).
  destruct rep as [q|]; unfold new_head in Hc; cbn [default] in Hc.
  - destruct (write_record_at_displaced _ _ _ _ _ _ _ _ _ _ _ _ _ Hw Hn) as [Hd _].
    destruct (displaced_fields n) as (H1 & H2 & _).
    exists (displaced n). split; [exact Hd|]. split; [congruence|].
    split; [exact H1|]. exists c. auto.
  - exists c. split; [exact Hc|]. split; congruence.
Qed.

(** X11. After a call of [write_record_at] that returns, the new head of
    the chain (the replacement, or [this] when there is none) holds tid
    [t], size [sz] and the bytes [r[0 .. sz)]. Its [next] is the old [next]
    when no growth is reported (an overwrite with a replacement unlinks the
    old cell), [this] when a replacement spills, and otherwise a new cell
    that is unlocked, not LATEST, and carries the old tid and the old
    [next]. *)
Theorem write_record_at_new_head chk CoreBits gle h this n txn t r sz h' growth rep :
  write_record_at chk CoreBits gle h this txn t r sz = Ok (h', (growth, rep)) ->
  h !! this = Some n -> sz < 2 ^ 32 ->
  exists c,
    h' !! new_head this rep = Some c /\
    version c = t /\ size c = sz /\ payload c = take (Z.to_nat sz) r /\
    Z.of_nat (length (payload c)) = sz /\
    (growth = false -> next c = next n) /\
    (growth = true -> rep <> None -> next c = Some this) /\
    (growth = true -> rep = None ->
       exists s, next c = Some (fresh (dom h)) /\
         h !! fresh (dom h) = None /\
         h' !! fresh (dom h) = Some s /\
         next s = next n /\ version s = version n /\
         is_latest s = false /\ is_locked s = false).
Proof.
  intros Hw Hn Hsz.
  destruct (write_record_at_head _ _ _ _ _ _ _ _ _ _ _ _ _ Hw Hn Hsz)
    as (c & Hc & Hv & Hs & Hp & _ & _ & Hnx).
  apply write_record_at_inv in Hw as (n' & Hn' & _ & _ & Hr & Hcase).
  assert (n' = n) by congruence. subst n'.
  exists c. split; [exact Hc|]. split; [exact Hv|]. split; [exact Hs|].
  split; [exact Hp|]. split; [rewrite Hp, length_take; lia|].
  split; [intros ->; exact Hnx|]. split.
  - intros -> Hrep. destruct rep; [exact Hnx | contradiction].
  - intros -> ->. exists (spilled n sz). split; [exact Hnx|].
    split; [apply lookup_fresh|].
    destruct Hcase as [(_ & _ & _ & ->) | (Hrep & _)]; [|discriminate].
    pose proof (fresh_ne h this n Hn) as Hfr.
    rewrite lookup_insert_ne by congruence.
    rewrite lookup_insert_eq. repeat split.
Qed.

(** ** Reading after a write *)

Lemma node_unlock_locked chk (h : heap) p c :
  h !! p = Some c -> is_locked c = true ->
  node_unlock chk h p = Ok (<[p := set_hdr c (unlock_word (hdr c))]> h).
Proof.
  intros Hc Hl. unfold node_unlock, deref. rewrite Hc. cbn [mbind result_bind].
  rewrite unlock_locked by exact Hl. reflexivity.
Qed.

Lemma set_hdr_unlock_fields c :
  is_locked (set_hdr c (unlock_word (hdr c))) = false /\
  is_latest (set_hdr c (unlock_word (hdr c))) = is_latest c /\
  next (set_hdr c (unlock_word (hdr c))) = next c /\
  version (set_hdr c (unlock_word (hdr c))) = version c /\
  payload (set_hdr c (unlock_word (hdr c))) = payload c.
Proof.
  destruct (flags_unlock_word (hdr c)) as (H0 & _ & _ & H3).
  unfold is_locked, is_latest, payload, set_hdr. cbn. auto.
Qed.

(** A read that finds its record in the entry cell. *)
Lemma record_at_entry fuel (h : heap) p c t start_t r rl :
  h !! p = Some c -> is_locked c = false -> version c <= t ->
  record_at (S (S fuel)) h p t start_t r rl =
    if rl && negb (is_latest c) then Ok (false, start_t, r)
    else Ok (true, version c, payload c).
Proof.
  intros Hc Hl Hv. rewrite (record_at_step fuel h p c) by assumption.
  unfold is_not_behind. replace (version c <=? t) with true by lia. reflexivity.
Qed.

(** X12. Write, then read: after [write_record_at] on a locked LATEST cell
    and the [unlock] of that cell, [stable_read] through the new head
    returns true with tid [t] and the bytes [r[0 .. sz)], for every tid
    [t' >= t]. *)
Theorem read_after_write chk CoreBits gle h this n txn t r sz h' growth rep :
  write_record_at chk CoreBits gle h this txn t r sz = Ok (h', (growth, rep)) ->
  h !! this = Some n -> is_locked n = true -> is_latest n = true ->
  sz < 2 ^ 32 ->
  exists h'',
    node_unlock chk h' this = Ok h'' /\
    forall fuel t' start_t r0,
      t <= t' ->
      stable_read (S (S fuel)) h'' (new_head this rep) t' start_t r0
        = Ok (true, t, take (Z.to_nat sz) r).
Proof.
  intros Hw Hn Hlock Hlat Hsz.
  destruct (write_record_at_head _ _ _ _ _ _ _ _ _ _ _ _ _ Hw Hn Hsz)
    as (c & Hc & Hv & _ & Hp & Hcl & Hck & _).
  destruct rep as [q|]; unfold new_head in *; cbn [default] in *.
  - destruct (write_record_at_displaced _ _ _ _ _ _ _ _ _ _ _ _ _ Hw Hn) as [Hd Hne].
    destruct (displaced_fields n) as (_ & Hdl & _).
    eexists. split; [apply (node_unlock_locked chk h' this (displaced n)); congruence|].
    intros fuel t' st r0 Ht. unfold stable_read.
    rewrite (record_at_entry fuel _ q c) by
      (rewrite ?lookup_insert_ne by congruence; assumption || lia).
    rewrite Hcl, Hv, Hp. reflexivity.
  - eexists. split; [apply (node_unlock_locked chk h' this c); congruence|].
    destruct (set_hdr_unlock_fields c) as (H0 & H1 & _ & H3 & H4).
    intros fuel t' st r0 Ht. unfold stable_read.
    rewrite (record_at_entry fuel _ this (set_hdr c (unlock_word (hdr c))))
      by (rewrite ?lookup_insert_eq; (reflexivity || assumption || lia)).
    rewrite H1, H3, H4, Hcl, Hlat, Hv, Hp. reflexivity.
Qed.

(** X13. A spill with a replacement keeps the old version: after the call
    and the [unlock] of [this], [stable_read] through the replacement at a
    tid [t_old] with [old tid <= t_old < t] returns the old tid and the old
    record. *)
Theorem read_old_version_after_replacing_spill
    chk CoreBits gle h this n txn t r sz h' q :
  write_record_at chk CoreBits gle h this txn t r sz = Ok (h', (true, Some q)) ->
  h !! this = Some n -> is_locked n = true -> sz < 2 ^ 32 ->
  exists h'',
    node_unlock chk h' this = Ok h'' /\
    forall fuel t_old start_t r0,
      version n <= t_old < t ->
      stable_read (S (S (S fuel))) h'' q t_old start_t r0
        = Ok (true, version n, payload n).
Proof.
  intros Hw Hn Hlock Hsz.
  destruct (write_record_at_head _ _ _ _ _ _ _ _ _ _ _ _ _ Hw Hn Hsz)
    as (c & Hc & Hv & _ & _ & _ & Hck & Hnx).
  unfold new_head in Hc. cbn [default] in Hc.
  destruct (write_record_at_displaced _ _ _ _ _ _ _ _ _ _ _ _ _ Hw Hn) as [Hd Hne].
  destruct (displaced_fields n) as (_ & Hdl & _ & Hdv & _ & Hdp).
  destruct (set_hdr_unlock_fields (displaced n)) as (H0 & _ & _ & H3 & H4).
  eexists. split; [apply (node_unlock_locked chk h' this (displaced n)); congruence|].
  intros fuel t_old st r0 Ht. unfold stable_read.
  rewrite (record_at_step (S fuel) _ q c)
    by (rewrite ?lookup_insert_ne by congruence; assumption).
  unfold is_not_behind. replace (version c <=? t_old) with false by lia.
  rewrite Hnx.
  rewrite (record_at_entry fuel _ this (set_hdr (displaced n) (unlock_word (hdr (displaced n)))))
    by (rewrite ?lookup_insert_eq; (reflexivity || assumption || lia)).
  cbn [andb]. rewrite H3, H4, Hdv, Hdp. reflexivity.
Qed.

(** X14. After [write_record_at] has returned a replacement and [this] has
    been unlocked, [stable_read] through the displaced cell [this] returns
    false and leaves its out-parameters alone, for every tid at or above the
    tid of that cell: a reader that still holds the old head has to look
    the key up again. *)
Theorem displaced_head_fails_reads chk CoreBits gle h this n txn t r sz h' growth q :
  write_record_at chk CoreBits gle h this txn t r sz = Ok (h', (growth, Some q)) ->
  h !! this = Some n -> is_locked n = true ->
  exists h'',
    node_unlock chk h' this = Ok h'' /\
    forall fuel t' start_t r0,
      version n <= t' ->
      stable_read (S (S fuel)) h'' this t' start_t r0 = Ok (false, start_t, r0).
Proof.
  intros Hw Hn Hlock.
  destruct (write_record_at_displaced _ _ _ _ _ _ _ _ _ _ _ _ _ Hw Hn) as [Hd Hne].
  destruct (displaced_fields n) as (Hdla & Hdl & _ & Hdv & _).
  destruct (set_hdr_unlock_fields (displaced n)) as (H0 & H1 & _ & H3 & _).
  eexists. split; [apply (node_unlock_locked chk h' this (displaced n)); congruence|].
  intros fuel t' st r0 Ht. unfold stable_read.
  rewrite (record_at_entry fuel _ this (set_hdr (displaced n) (unlock_word (hdr (displaced n)))))
    by (rewrite ?lookup_insert_eq; (reflexivity || assumption || lia)).
  rewrite H1, Hdla. reflexivity.
Qed.

Lemma write_abc_spill_in_place :
  exists h', write_record_at true 10 0 heap_abc 1%positive transaction_proto1 2 [x78] 1
             = Ok (h', (true, None)).
Proof. eexists. vm_compute. reflexivity. Qed.

Lemma write_abc_spill_replace :
  exists h', write_record_at true 10 0 heap_abc 1%positive transaction_proto1 2 bytes_17 17
             = Ok (h', (true, Some 2%positive)).
Proof. eexists. vm_compute. reflexivity. Qed.

Lemma write_abc_overwrite :
  exists h', write_record_at true 10 0 heap_abc 1%positive transaction_proto2 2 [x78] 1
             = Ok (h', (false, None)).
Proof. eexists. vm_compute. reflexivity. Qed.

Lemma node_wf_cell_abc : node_wf cell_abc.
Proof. repeat split; vm_compute; congruence. Qed.

Lemma write_record_at_returns_and_flags_witness :
  exists h' rep,
    write_record_at true 10 0 heap_abc 1%positive transaction_proto2 2 [x78] 1
      = Ok (h', (false, rep)) /\ rep = None.
Proof.
  destruct (write_record_at_returns_and_flags true 10 0 heap_abc 1%positive cell_abc
              transaction_proto2 2 [x78] 1 true)
    as (h' & rep & Hw & Hiff);
    try reflexivity; try exact node_wf_cell_abc; try (simpl; lia).
  exists h', rep. split; [exact Hw|]. apply Hiff. simpl. lia.
Defined.

Lemma write_record_at_frame_witness :
  exists h', write_record_at true 10 0 heap_abc 1%positive transaction_proto2 2 [x78] 1
               = Ok (h', (false, None)) /\ dom h' = dom heap_abc.
Proof.
  destruct write_abc_overwrite as [h' Hw]. exists h'. split; [exact Hw|].
  destruct (write_record_at_frame _ _ _ _ _ _ _ _ _ _ _ _ Hw) as (_ & _ & _ & _ & Hdom & _).
  apply Hdom; reflexivity.
Defined.

Lemma write_record_at_hands_over_latest_witness :
  exists h' c cq,
    write_record_at true 10 0 heap_abc 1%positive transaction_proto1 2 bytes_17 17
      = Ok (h', (true, Some 2%positive)) /\
    h' !! 1%positive = Some c /\ is_latest c = false /\
    h' !! 2%positive = Some cq /\ is_latest cq = true.
Proof.
  destruct write_abc_spill_replace as [h' Hw].
  destruct (write_record_at_hands_over_latest _ _ _ _ _ cell_abc _ _ _ _ _ _ _ Hw)
    as (c & Hc & _ & Hlat & cq & Hq & Hql & _);
    try reflexivity.
  exists h', c, cq. auto.
Defined.

Lemma write_record_at_new_head_witness :
  exists h' c,
    write_record_at true 10 0 heap_abc 1%positive transaction_proto1 2 [x78] 1
      = Ok (h', (true, None)) /\
    h' !! 1%positive = Some c /\ version c = 2 /\ payload c = [x78].
Proof.
  destruct write_abc_spill_in_place as [h' Hw].
  destruct (write_record_at_new_head _ _ _ _ _ cell_abc _ _ _ _ _ _ _ Hw)
    as (c & Hc & Hv & _ & Hp & _); try reflexivity.
  exists h', c. auto.
Defined.

Lemma read_after_write_witness :
  exists h' h'',
    write_record_at true 10 0 heap_abc 1%positive transaction_proto1 2 [x78] 1
      = Ok (h', (true, None)) /\
    node_unlock true h' 1%positive = Ok h'' /\
    stable_read 2 h'' 1%positive 5 0 [] = Ok (true, 2, [x78]).
Proof.
  destruct write_abc_spill_in_place as [h' Hw].
  destruct (read_after_write _ _ _ _ _ cell_abc _ _ _ _ _ _ _ Hw)
    as (h'' & Hu & Hread); try reflexivity.
  exists h', h''. split; [exact Hw|]. split; [exact Hu|].
  apply (Hread 0%nat 5 0 []). lia.
Defined.

Lemma read_old_version_after_replacing_spill_witness :
  exists h' h'',
    write_record_at true 10 0 heap_abc 1%positive transaction_proto1 2 bytes_17 17
      = Ok (h', (true, Some 2%positive)) /\
    node_unlock true h' 1%positive = Ok h'' /\
    stable_read 3 h'' 2%positive 1 0 [] = Ok (true, 1, [x61; x62; x63]).
Proof.
  destruct write_abc_spill_replace as [h' Hw].
  destruct (read_old_version_after_replacing_spill _ _ _ _ _ cell_abc _ _ _ _ _ _ Hw)
    as (h'' & Hu & Hread); try reflexivity.
  exists h', h''. split; [exact Hw|]. split; [exact Hu|].
  apply (Hread 0%nat 1 0 []). simpl. lia.
Defined.

Lemma displaced_head_fails_reads_witness :
  exists h' h'',
    write_record_at true 10 0 heap_abc 1%positive transaction_proto1 2 bytes_17 17
      = Ok (h', (true, Some 2%positive)) /\
    node_unlock true h' 1%positive = Ok h'' /\
    stable_read 2 h'' 1%positive 5 0 [] = Ok (false, 0, []).
Proof.
  destruct write_abc_spill_replace as [h' Hw].
  destruct (displaced_head_fails_reads _ _ _ _ _ cell_abc _ _ _ _ _ _ _ Hw)
    as (h'' & Hu & Hread); try reflexivity.
  exists h', h''. split; [exact Hw|]. split; [exact Hu|].
  apply (Hread 0%nat 5 0 []). simpl. lia.
Defined.

(** ** The in-place-update predicate and the write path *)

(** A write that the protocol does not allow to overwrite adds a version. *)
Lemma write_record_at_spills chk CoreBits gle h this n txn t r sz :
  h !! this = Some n ->
  is_locked n = true -> is_latest n = true -> node_wf n ->
  can_overwrite_record_tid chk CoreBits gle txn (version n) t = Ok false ->
  0 <= sz < 2 ^ 32 -> sz <= Z.of_nat (length r) ->
  exists h' rep c o,
    write_record_at chk CoreBits gle h this txn t r sz = Ok (h', (true, rep)) /\
    h !! fresh (dom h) = None /\
    dom h' = {[ fresh (dom h) ]} ∪ dom h /\
    h' !! new_head this rep = Some c /\
    is_latest c = true /\ version c = t /\ size c = sz /\
    payload c = take (Z.to_nat sz) r /\
    next c = Some (old_version_cell h this rep) /\
    old_version_cell h this rep <> new_head this rep /\
    h' !! old_version_cell h this rep = Some o /\
    is_latest o = false /\ version o = version n /\ next o = next n.
Proof.
  intros Hn Hlock Hlat Hwf Hcan Hsz Hr.
  destruct (write_record_at_returns chk CoreBits gle h this n txn t r sz false)
    as (h' & rep & Hw); try assumption.
  cbn [negb] in Hw.
  destruct (write_record_at_head _ _ _ _ _ _ _ _ _ _ _ _ _ Hw Hn ltac:(lia))
    as (c & Hc & Hv & Hs & Hp & Hcl & _ & Hnx).
  pose proof (fresh_ne h this n Hn) as Hfr.
  pose proof (lookup_fresh h) as Hnone.
  pose proof Hw as Hinv.
  apply write_record_at_inv in Hinv as (n' & Hn' & _ & _ & _ & Hcase).
  assert (n' = n) by congruence. subst n'.
  destruct Hcase as [(-> & _ & _ & Hh') | (-> & _ & Hh')];
    unfold new_head, old_version_cell in *; cbn [default] in *.
  - exists h', None, c, (spilled n sz).
    split; [exact Hw|]. split; [exact Hnone|]. split.
    { rewrite Hh'. rewrite dom_insert_lookup_L.
      - apply dom_insert_L.
      - rewrite lookup_insert_ne by exact Hfr. rewrite Hn. eauto. }
    split; [exact Hc|]. split; [congruence|]. split; [exact Hv|].
    split; [exact Hs|]. split; [exact Hp|]. split; [exact Hnx|].
    split; [exact Hfr|]. split.
    { rewrite Hh'. rewrite lookup_insert_ne by congruence.
      apply lookup_insert_eq. }
    repeat split.
  - destruct (displaced_fields n) as (D1 & _ & D3 & D4 & _).
    exists h', (Some (fresh (dom h))), c, (displaced n).
    split; [exact Hw|]. split; [exact Hnone|]. split.
    { rewrite Hh'. rewrite dom_insert_L. f_equal.
      apply dom_insert_lookup_L. rewrite Hn. eauto. }
    split; [exact Hc|]. split; [exact Hcl|]. split; [exact Hv|].
    split; [exact Hs|]. split; [exact Hp|]. split; [exact Hnx|].
    split; [intros E; apply Hfr; symmetry; exact E|]. split.
    { rewrite Hh'. rewrite lookup_insert_ne by exact Hfr.
      apply lookup_insert_eq. }
    auto.
Qed.

(** A write that the protocol allows to overwrite, into a buffer that is
    large enough, adds no version. *)
Lemma write_record_at_overwrites_in_place chk CoreBits gle h this n txn t r sz :
  h !! this = Some n ->
  is_locked n = true -> is_latest n = true -> node_wf n ->
  can_overwrite_record_tid chk CoreBits gle txn (version n) t = Ok true ->
  0 <= sz <= alloc_size n -> sz <= Z.of_nat (length r) ->
  exists h' c,
    write_record_at chk CoreBits gle h this txn t r sz = Ok (h', (false, None)) /\
    dom h' = dom h /\
    h' !! this = Some c /\
    version c = t /\ size c = sz /\ payload c = take (Z.to_nat sz) r /\
    next c = next n /\ hdr c = hdr n.
Proof.
  intros Hn Hlock Hlat Hwf Hcan Hsz Hr.
  pose proof Hwf as (Hlen & Hsize & Hcap).
  destruct (write_record_at_returns chk CoreBits gle h this n txn t r sz true)
    as (h' & rep & Hw); try assumption; try lia.
  cbn [negb] in Hw.
  pose proof Hw as Hinv.
  apply write_record_at_inv in Hinv as (n' & Hn' & _ & _ & _ & Hcase).
  assert (n' = n) by congruence. subst n'.
  destruct Hcase as [(-> & _ & _ & Hh') | (_ & Hgt & _)]; [|lia].
  destruct (write_record_at_head _ _ _ _ _ _ _ _ _ _ _ _ _ Hw Hn ltac:(lia))
    as (c & Hc & Hv & Hs & Hp & _ & _ & Hnx).
  unfold new_head in Hc. cbn [default] in Hc.
  exists h', c. split; [exact Hw|]. split.
  { rewrite Hh'. apply dom_insert_lookup_L. rewrite Hn. eauto. }
  split; [exact Hc|]. split; [exact Hv|]. split; [exact Hs|].
  split; [exact Hp|]. split; [exact Hnx|].
  rewrite Hh', lookup_insert_eq in Hc. injection Hc as <-. reflexivity.
Qed.

(** C5. The base-class [can_overwrite_record_tid] returns false for every
    pair of tids, and so does the call on a [transaction_proto1], which does
    not override it. So under P1 every write spills: [write_record_at] on a
    locked LATEST cell returns, reports growth, and leaves a chain that is
    one cell longer, the record at tid [cur] at its head in front of a cell
    that is not LATEST and carries the tid [prev] (which bytes of the old
    record that cell holds is the subject of C2). On a
    [transaction_proto2] the call returns true exactly when
    [EpochId(prev) = EpochId(cur)]; it returns that comparison whenever its
    two INVARIANTs hold or are not checked. So a P2 write onto a cell of
    another epoch spills in the same way and never overwrites in place,
    while a P2 write within the epoch that fits the buffer overwrites in
    place and allocates nothing. *)
Theorem can_overwrite_record_tid_spec chk CoreBits gle prev cur :
  transaction_can_overwrite_record_tid prev cur = false /\
  can_overwrite_record_tid chk CoreBits gle transaction_proto1 prev cur = Ok false /\
  (forall b,
     can_overwrite_record_tid chk CoreBits gle transaction_proto2 prev cur = Ok b ->
     (b = true <-> EpochId CoreBits prev = EpochId CoreBits cur)) /\
  ((chk = true -> prev < cur /\ gle <= EpochId CoreBits cur) ->
   can_overwrite_record_tid chk CoreBits gle transaction_proto2 prev cur =
     Ok (EpochId CoreBits prev =? EpochId CoreBits cur)) /\
  (forall h this n r sz,
     h !! this = Some n -> version n = prev ->
     is_locked n = true -> is_latest n = true -> node_wf n ->
     0 <= sz < 2 ^ 32 -> sz <= Z.of_nat (length r) ->
     write_adds_a_version chk CoreBits gle h this n transaction_proto1 cur r sz) /\
  (forall h this n r sz,
     h !! this = Some n -> version n = prev ->
     is_locked n = true -> is_latest n = true -> node_wf n ->
     0 <= sz < 2 ^ 32 -> sz <= Z.of_nat (length r) ->
     (chk = true -> prev < cur /\ gle <= EpochId CoreBits cur) ->
     (EpochId CoreBits prev <> EpochId CoreBits cur ->
      write_adds_a_version chk CoreBits gle h this n transaction_proto2 cur r sz) /\
     (EpochId CoreBits prev = EpochId CoreBits cur -> sz <= alloc_size n ->
      write_overwrites_in_place chk CoreBits gle h this n transaction_proto2 cur r sz)) /\
  (forall h this r sz h' growth rep,
     write_record_at chk CoreBits gle h this transaction_proto1 cur r sz
       = Ok (h', (growth, rep)) ->
     growth = true) /\
  (forall h this n r sz h' growth rep,
     h !! this = Some n -> version n = prev ->
     EpochId CoreBits prev <> EpochId CoreBits cur ->
     write_record_at chk CoreBits gle h this transaction_proto2 cur r sz
       = Ok (h', (growth, rep)) ->
     growth = true).
Proof.
  assert (Hval : forall b,
    can_overwrite_record_tid chk CoreBits gle transaction_proto2 prev cur = Ok b ->
    b = (EpochId CoreBits prev =? EpochId CoreBits cur)).
  { simpl. unfold transaction_proto2_can_overwrite_record_tid, INVARIANT.
    intros b. destruct chk; simpl.
    - destruct (prev <? cur); simpl; [|discriminate].
      destruct (gle <=? EpochId CoreBits cur); simpl; [|discriminate]. congruence.
    - congruence. }
  assert (Hret : (chk = true -> prev < cur /\ gle <= EpochId CoreBits cur) ->
    can_overwrite_record_tid chk CoreBits gle transaction_proto2 prev cur =
      Ok (EpochId CoreBits prev =? EpochId CoreBits cur)).
  { intros Hpre. simpl.
    unfold transaction_proto2_can_overwrite_record_tid, INVARIANT.
    destruct chk; [|reflexivity].
    destruct (Hpre eq_refl) as [H1 H2].
    replace (prev <? cur) with true by lia.
    replace (gle <=? EpochId CoreBits cur) with true by lia. reflexivity. }
  split; [reflexivity|]. split; [reflexivity|].
  split; [intros b Hb; rewrite (Hval b Hb); apply Z.eqb_eq|].
  split; [exact Hret|].
  split; [|split; [|split]].
  - intros h this n r sz Hn Hv Hlock Hlat Hwf Hsz Hr.
    apply write_record_at_spills; try assumption. reflexivity.
  - intros h this n r sz Hn Hv Hlock Hlat Hwf Hsz Hr Hpre. split.
    + intros Hne. apply write_record_at_spills; try assumption.
      rewrite Hv, (Hret Hpre). f_equal. apply Z.eqb_neq. exact Hne.
    + intros Heq Hle. apply write_record_at_overwrites_in_place; try assumption; [|lia].
      rewrite Hv, (Hret Hpre). f_equal. apply Z.eqb_eq. exact Heq.
  - intros h this r sz h' growth rep. apply proto1_write_always_grows.
  - intros h this n r sz h' growth rep Hn Hv Hne Hw.
    apply write_record_at_growth in Hw as (n' & Hn' & Hcan).
    assert (n' = n) by congruence. subst n'. rewrite Hv in Hcan.
    apply Hval in Hcan. destruct growth; [reflexivity|].
    simpl in Hcan. symmetry in Hcan. apply Z.eqb_eq in Hcan. contradiction.
Qed.

Lemma can_overwrite_record_tid_spec_witness :
  can_overwrite_record_tid true 10 0 transaction_proto2 1 2 = Ok true /\
  can_overwrite_record_tid true 10 0 transaction_proto2 1 (2 ^ 37) = Ok false /\
  write_adds_a_version true 10 0 heap_abc 1%positive cell_abc transaction_proto1 2 [x78] 1 /\
  write_adds_a_version true 10 0 heap_abc 1%positive cell_abc transaction_proto2
    (2 ^ 37) [x78] 1 /\
  write_overwrites_in_place true 10 0 heap_abc 1%positive cell_abc transaction_proto2
    2 [x78] 1.
Proof.
  assert (Hpre2 : true = true -> 1 < 2 /\ 0 <= EpochId 10 2)
    by (intros _; split; [lia | vm_compute; discriminate]).
  assert (Hpre37 : true = true -> 1 < 2 ^ 37 /\ 0 <= EpochId 10 (2 ^ 37))
    by (intros _; split; [lia | vm_compute; discriminate]).
  split; [exact (proj1 (proj2 (proj2 (proj2 (can_overwrite_record_tid_spec true 10 0 1 2)))) Hpre2)|].
  split; [exact (proj1 (proj2 (proj2 (proj2 (can_overwrite_record_tid_spec true 10 0 1 (2 ^ 37))))) Hpre37)|].
  split; [|split].
  - apply (proj1 (proj2 (proj2 (proj2 (proj2 (can_overwrite_record_tid_spec true 10 0 1 2)))))
             heap_abc 1%positive cell_abc [x78] 1);
      try reflexivity; try exact node_wf_cell_abc; simpl; lia.
  - apply (proj1 (proj2 (proj2 (proj2 (proj2 (proj2 (can_overwrite_record_tid_spec true 10 0 1 (2 ^ 37)))))))
             heap_abc 1%positive cell_abc [x78] 1);
      try reflexivity; try exact node_wf_cell_abc; try exact Hpre37;
      try (simpl; lia).
    vm_compute. discriminate.
  - apply (proj1 (proj2 (proj2 (proj2 (proj2 (proj2 (can_overwrite_record_tid_spec true 10 0 1 2))))))
             heap_abc 1%positive cell_abc [x78] 1);
      try reflexivity; try exact node_wf_cell_abc; try exact Hpre2;
      try (simpl; lia).
Defined.

(** ** The stable variants of the predicates *)

Lemma stable_latest_value_is_nil_eq n :
  stable_latest_value_is_nil n = negb (is_locked n) && latest_value_is_nil n.
Proof.
  unfold stable_latest_value_is_nil, latest_value_is_nil, is_locked, is_latest,
    check_version.
  destruct (IsLocked (hdr n)) eqn:Hl.
  - rewrite try_stable_version_locked by exact Hl. reflexivity.
  - rewrite try_stable_version_unlocked by exact Hl. simpl.
    rewrite Z.eqb_refl, andb_true_r.
    destruct (IsLatest (hdr n) && (size n =? 0)); reflexivity.
Qed.

(** X5. On an unlocked cell [stable_is_latest_version] and
    [stable_latest_value_is_nil] give the answers of [is_latest_version] and
    [latest_value_is_nil]; on a locked cell both give up after their 16
    spins and answer false. *)
Theorem stable_predicates_agree_or_give_up n t :
  (is_locked n = false ->
     stable_is_latest_version n t = is_latest_version n t /\
     stable_latest_value_is_nil n = latest_value_is_nil n) /\
  (is_locked n = true ->
     stable_is_latest_version n t = false /\
     stable_latest_value_is_nil n = false).
Proof.
  rewrite stable_is_latest_version_eq, stable_latest_value_is_nil_eq.
  unfold is_latest_version.
  split; intros ->; split; reflexivity.
Qed.

Lemma stable_predicates_agree_or_give_up_witness :
  stable_is_latest_version cell_1 5 = is_latest_version cell_1 5 /\
  stable_is_latest_version cell_abc 5 = false.
Proof.
  split.
  - exact (proj1 (proj1 (stable_predicates_agree_or_give_up cell_1 5) eq_refl)).
  - exact (proj1 (proj2 (stable_predicates_agree_or_give_up cell_abc 5) eq_refl)).
Defined.

(** ** A read that meets a locked cell *)

Lemma record_at_blocks fuel : forall h newer p c older t start_t r rl,
  chain h (Some p) (newer ++ c :: older) ->
  unlocked newer -> Forall (fun n => t < version n) newer ->
  is_locked c = true ->
  record_at fuel h p t start_t r rl = Failed OutOfFuel.
Proof.
  induction fuel as [|fuel IH]; intros h newer p c older t st r rl Hc Hu Hnew Hl;
    [reflexivity|].
  destruct newer as [|n newer]; cbn [app] in Hc;
    inversion Hc as [|p0 n0 ns0 Hn Hrest]; subst.
  - apply (record_at_locked_entry (S fuel) h p c); assumption.
  - inversion Hu as [|n1 ns1 Hln Hu']; subst.
    inversion Hnew as [|n2 ns2 Hvn Hnew']; subst.
    destruct fuel as [|fuel'].
    + cbn [record_at]. unfold deref. rewrite Hn. reflexivity.
    + rewrite (record_at_step fuel' h p n) by assumption.
      unfold is_not_behind. replace (version n <=? t) with false by lia.
      destruct (next n) as [q|] eqn:Hq.
      * apply (IH h newer q c older); assumption.
      * destruct newer; inversion Hrest.
Qed.

(** X6. [stable_read] does not return, whatever the fuel, when the walk
    reaches a locked cell: the cells in front of it are unlocked and all
    have a tid above [t]. With no cells in front this is the read through a
    locked entry cell, the deadlock the comment of [stable_read] warns
    of. *)
Theorem stable_read_blocks_at_a_locked_cell h newer p c older t start_t r :
  chain h (Some p) (newer ++ c :: older) ->
  unlocked newer -> Forall (fun n => t < version n) newer ->
  is_locked c = true ->
  forall fuel, stable_read fuel h p t start_t r = Failed OutOfFuel.
Proof.
  intros Hc Hu Hnew Hl fuel. unfold stable_read.
  apply (record_at_blocks fuel h newer p c older); assumption.
Qed.

Lemma stable_read_blocks_at_a_locked_cell_witness :
  stable_read 9 heap_abc 1%positive 5 0 [] = Failed OutOfFuel.
Proof.
  apply (stable_read_blocks_at_a_locked_cell heap_abc [] 1%positive cell_abc []).
  - apply (chain_cell heap_abc 1%positive cell_abc []); [reflexivity|]. apply chain_null.
  - constructor.
  - constructor.
  - reflexivity.
Defined.

(** ** A fresh slot *)

(** X7. The cell [alloc_first] creates sits at an address that was not
    allocated, is unlocked and LATEST, has no successor and holds the absent
    record at [MIN_TID]: [stable_read] on it returns true with tid
    [MIN_TID] and an empty record for every tid [t >= MIN_TID]. *)
Theorem fresh_slot_reads_as_absent h alloc_sz h' p t start_t r fuel :
  alloc_first h alloc_sz = (h', p) ->
  MIN_TID <= t ->
  h !! p = None /\
  (exists c, h' !! p = Some c /\ latest_value_is_nil c = true /\
     is_locked c = false /\ next c = None /\ version c = MIN_TID) /\
  stable_read (S (S fuel)) h' p t start_t r = Ok (true, MIN_TID, []).
Proof.
  unfold alloc_first. intros [= <- <-] Ht.
  split; [apply lookup_fresh|]. split.
  - eexists. split; [apply lookup_insert_eq|]. repeat split.
  - unfold stable_read.
    rewrite (record_at_entry fuel _ (fresh (dom h))
               (logical_node_ctor_first
                  (sub64 (round_up 16 (wrap64 (sizeof_logical_node + alloc_sz)))
                     sizeof_logical_node)))
      by (rewrite ?lookup_insert_eq; (reflexivity || exact Ht)).
    reflexivity.
Qed.

Lemma fresh_slot_reads_as_absent_witness :
  stable_read 2 (fst (alloc_first heap_abc 10)) (snd (alloc_first heap_abc 10)) 7 0 [x61]
    = Ok (true, MIN_TID, []).
Proof.
  refine (proj2 (proj2 (fresh_slot_reads_as_absent heap_abc 10 _ _ 7 0 [x61] 0%nat _ _))).
  - reflexivity.
  - unfold MIN_TID. lia.
Defined.

(** ** Freeing a cell *)

Lemma node_lock_unlocked fuel (h : heap) p c :
  h !! p = Some c -> is_locked c = false ->
  node_lock (S fuel) h p = Ok (<[p := set_hdr c (Z.lor (hdr c) HDR_LOCKED_MASK)]> h).
Proof.
  intros Hc Hl. unfold node_lock, deref. rewrite Hc. cbn [mbind result_bind].
  rewrite lock_unlocked by exact Hl. reflexivity.
Qed.

Lemma mark_deleting_Ok chk v :
  IsLocked v = true -> IsEnqueued v = false -> IsDeleting v = false ->
  mark_deleting chk v = Ok (Z.lor v HDR_DELETING_MASK).
Proof.
  intros Hl He Hd. unfold mark_deleting.
  rewrite Hl, He, Hd. cbn [negb]. rewrite !INVARIANT_true. reflexivity.
Qed.

(** The header after [lock(); mark_deleting(); unlock();]. *)
Lemma marked_header_fields v :
  IsLocked v = false -> IsEnqueued v = false -> IsDeleting v = false ->
  let v1 := Z.lor v HDR_LOCKED_MASK in
  let v2 := Z.lor v1 HDR_DELETING_MASK in
  IsLocked v1 = true /\ IsEnqueued v1 = false /\ IsDeleting v1 = false /\
  IsLocked v2 = true /\
  IsDeleting (unlock_word v2) = true /\ IsLocked (unlock_word v2) = false.
Proof.
  intros Hl He Hd v1 v2. subst v1 v2.
  change HDR_LOCKED_MASK with (Z.shiftl 1 0).
  unfold HDR_DELETING_MASK, HDR_DELETING_SHIFT.
  destruct (lor_flag_fields v 0 ltac:(lia)) as (A0 & A1 & A2 & _).
  destruct (lor_flag_fields (Z.lor v (Z.shiftl 1 0)) 1 ltac:(lia)) as (B0 & B1 & _).
  destruct (flags_unlock_word (Z.lor (Z.lor v (Z.shiftl 1 0)) (Z.shiftl 1 1)))
    as (C0 & C1 & _).
  rewrite C0, C1, B0, B1, A0, A1, A2, Hl, He, Hd. repeat split.
Qed.

Lemma release_sequence chk fuel (h : heap) p n :
  h !! p = Some n ->
  is_locked n = false -> is_enqueued n = false -> is_deleting n = false ->
  exists h1 h2 h3 c,
    node_lock (S fuel) h p = Ok h1 /\
    node_mark_deleting chk h1 p = Ok h2 /\
    node_unlock chk h2 p = Ok h3 /\
    h3 !! p = Some c /\ is_deleting c = true /\ is_locked c = false /\
    delete p h3 = delete p h.
Proof.
  intros Hn Hl He Hd. unfold is_locked, is_enqueued, is_deleting in *.
  destruct (marked_header_fields (hdr n) Hl He Hd) as (A0 & A1 & A2 & B0 & C1 & C0).
  set (v1 := Z.lor (hdr n) HDR_LOCKED_MASK) in *.
  set (v2 := Z.lor v1 HDR_DELETING_MASK) in *.
  exists (<[p := set_hdr n v1]> h).
  exists (<[p := set_hdr (set_hdr n v1) v2]> (<[p := set_hdr n v1]> h)).
  eexists. exists (set_hdr (set_hdr (set_hdr n v1) v2) (unlock_word v2)).
  split; [apply node_lock_unlocked; assumption|].
  split.
  { unfold node_mark_deleting, deref. rewrite lookup_insert_eq.
    cbn [mbind result_bind]. cbn [hdr set_hdr].
    rewrite mark_deleting_Ok by assumption. reflexivity. }
  split.
  { apply (node_unlock_locked chk _ p (set_hdr (set_hdr n v1) v2)).
    - apply lookup_insert_eq.
    - exact B0. }
  split; [apply lookup_insert_eq|].
  split; [exact C1|]. split; [exact C0|].
  rewrite !delete_insert_eq. reflexivity.
Qed.

(** X15. [release_no_rcu] of the null pointer does nothing. On a cell that
    is unlocked, not enqueued and not deleting it returns, in both builds,
    and frees exactly that cell. *)
Theorem release_no_rcu_frees_the_cell chk fuel (h : heap) p n :
  h !! p = Some n ->
  is_locked n = false -> is_enqueued n = false -> is_deleting n = false ->
  release_no_rcu chk (S fuel) h (Some p) = Ok (delete p h) /\
  release_no_rcu chk (S fuel) h None = Ok h /\
  (delete p h) !! p = None /\
  (forall q, q <> p -> (delete p h) !! q = h !! q).
Proof.
  intros Hn Hl He Hd.
  split; [|split; [reflexivity|split]].
  - unfold release_no_rcu. destruct chk.
    + destruct (release_sequence true fuel h p n Hn Hl He Hd)
        as (h1 & h2 & h3 & c & H1 & H2 & H3 & Hc & _ & _ & Hdel).
      rewrite H1. cbn [mbind result_bind]. rewrite H2. cbn [mbind result_bind].
      rewrite H3. cbn [mbind result_bind]. unfold deref. rewrite Hc.
      cbn [mbind result_bind]. rewrite Hdel. reflexivity.
    + cbn [mbind result_bind]. unfold deref. rewrite Hn. reflexivity.
  - apply lookup_delete_eq.
  - intros q Hq. apply lookup_delete_ne. congruence.
Qed.

Lemma release_no_rcu_frees_the_cell_witness :
  release_no_rcu true 1 heap_2 (Some 2%positive) = Ok (delete 2%positive heap_2).
Proof.
  apply (release_no_rcu_frees_the_cell true 0 heap_2 2%positive cell_old); reflexivity.
Defined.

(** X16. With CHECK_INVARIANTS, [release_no_rcu] of a locked cell never
    returns (its [lock()] spins), and on an unlocked cell that is enqueued
    or already deleting it fails an INVARIANT of [mark_deleting]. *)
Theorem release_no_rcu_checks_the_header fuel (h : heap) p n :
  h !! p = Some n ->
  (is_locked n = true -> release_no_rcu true fuel h (Some p) = Failed OutOfFuel) /\
  (is_locked n = false -> is_enqueued n = true \/ is_deleting n = true ->
     release_no_rcu true (S fuel) h (Some p) = Failed InvariantViolated).
Proof.
  intros Hn. split.
  - intros Hl. unfold release_no_rcu, node_lock, deref. rewrite Hn.
    cbn [mbind result_bind]. rewrite lock_locked by exact Hl. reflexivity.
  - intros Hl Hbad. unfold release_no_rcu.
    rewrite (node_lock_unlocked fuel h p n Hn Hl). cbn [mbind result_bind].
    unfold node_mark_deleting, deref. rewrite lookup_insert_eq.
    cbn [mbind result_bind]. cbn [hdr set_hdr].
    unfold is_locked, is_enqueued, is_deleting in *.
    change HDR_LOCKED_MASK with (Z.shiftl 1 0).
    destruct (lor_flag_fields (hdr n) 0 ltac:(lia)) as (A0 & A1 & A2 & _).
    unfold mark_deleting, INVARIANT. rewrite A0, A1, A2, Hl. cbn.
    destruct Hbad as [-> | ->]; [reflexivity|].
    destruct (IsEnqueued (hdr n)); reflexivity.
Qed.

Lemma release_no_rcu_checks_the_header_witness :
  release_no_rcu true 3 heap_abc (Some 1%positive) = Failed OutOfFuel.
Proof.
  exact (proj1 (release_no_rcu_checks_the_header 3 heap_abc 1%positive cell_abc eq_refl)
           eq_refl).
Defined.

(** X17. With CHECK_INVARIANTS, [deleter] rejects a cell that has not been
    marked, and a cell that is marked but still locked; after
    [lock(); mark_deleting(); unlock();] on an unlocked cell that is neither
    enqueued nor deleting, [deleter] accepts the cell and frees it. *)
Theorem deleter_accepts_a_marked_unlocked_cell chk fuel (h : heap) p n :
  h !! p = Some n ->
  is_locked n = false -> is_enqueued n = false -> is_deleting n = false ->
  deleter true h p = Failed InvariantViolated /\
  exists h1 h2 h3,
    node_lock (S fuel) h p = Ok h1 /\
    node_mark_deleting chk h1 p = Ok h2 /\
    deleter true h2 p = Failed InvariantViolated /\
    node_unlock chk h2 p = Ok h3 /\
    deleter chk h3 p = Ok (delete p h).
Proof.
  intros Hn Hl He Hd. split.
  - unfold deleter, deref. rewrite Hn. cbn [mbind result_bind].
    unfold INVARIANT. rewrite Hd. reflexivity.
  - unfold is_locked, is_enqueued, is_deleting in *.
    destruct (marked_header_fields (hdr n) Hl He Hd) as (A0 & A1 & A2 & B0 & C1 & C0).
    destruct (release_sequence chk fuel h p n Hn Hl He Hd)
      as (h1 & h2 & h3 & c & H1 & H2 & H3 & Hc & Hcd & Hcl & Hdel).
    exists h1, h2, h3. split; [exact H1|]. split; [exact H2|].
    split; [|split; [exact H3|]].
    + rewrite (node_lock_unlocked fuel h p n Hn Hl) in H1. injection H1 as <-.
      unfold node_mark_deleting, deref in H2. rewrite lookup_insert_eq in H2.
      cbn [mbind result_bind hdr set_hdr] in H2.
      rewrite mark_deleting_Ok in H2 by assumption. injection H2 as <-.
      unfold deleter, deref. rewrite lookup_insert_eq. cbn [mbind result_bind].
      unfold INVARIANT, is_deleting, is_locked. cbn [hdr set_hdr].
      rewrite B0.
      destruct (IsDeleting (Z.lor (Z.lor (hdr n) HDR_LOCKED_MASK) HDR_DELETING_MASK));
        reflexivity.
    + unfold deleter, deref. rewrite Hc. cbn [mbind result_bind].
      rewrite Hcd, Hcl. cbn [negb]. rewrite !INVARIANT_true.
      cbn [mbind result_bind]. rewrite Hdel. reflexivity.
Qed.

Lemma deleter_accepts_a_marked_unlocked_cell_witness :
  deleter true heap_2 2%positive = Failed InvariantViolated.
Proof.
  exact (proj1 (deleter_accepts_a_marked_unlocked_cell true 0 heap_2 2%positive cell_old
                  eq_refl eq_refl eq_refl eq_refl)).
Defined.

(** ** More on the TID layout *)

Lemma testbit_CoreId CoreBits NMaxCores v i :
  proto2_params CoreBits NMaxCores -> 0 <= i ->
  Z.testbit (CoreId NMaxCores v) i = Z.testbit v i && (i <? CoreBits).
Proof.
  intros Hp Hi. unfold CoreId.
  rewrite Z.land_spec, (testbit_CoreMask CoreBits) by assumption. reflexivity.
Qed.

Lemma testbit_NumId CoreBits v j :
  0 <= CoreBits < 37 ->
  Z.testbit (NumId CoreBits v) j = (0 <=? j) && (j <? 27) && Z.testbit v (j + CoreBits).
Proof.
  intros Hcb. destruct (Z.leb_spec 0 j) as [Hj|Hj].
  - unfold NumId, NumIdShift.
    rewrite testbit_shr64, Z.land_spec, testbit_NumIdMask by lia.
    cmp_cases; simpl; rewrite ?andb_true_r, ?andb_false_r; reflexivity.
  - rewrite Z.testbit_neg_r by lia. reflexivity.
Qed.

Lemma testbit_EpochId CoreBits v j :
  0 <= CoreBits < 37 ->
  Z.testbit (EpochId CoreBits v) j =
    (0 <=? j) && (j + (CoreBits + 27) <? 64) && Z.testbit v (j + (CoreBits + 27)).
Proof.
  intros Hcb. destruct (Z.leb_spec 0 j) as [Hj|Hj].
  - unfold EpochId, EpochShift, NumIdShift.
    rewrite testbit_shr64, Z.land_spec, testbit_EpochMask by lia.
    cmp_cases; simpl; rewrite ?andb_true_r, ?andb_false_r; reflexivity.
  - rewrite Z.testbit_neg_r by lia. reflexivity.
Qed.

(** X18. Decode, then encode: for every 64-bit TID [v],
    [MakeTid(CoreId(v), NumId(v), EpochId(v)) = v]. *)
Theorem MakeTid_of_fields CoreBits NMaxCores v :
  proto2_params CoreBits NMaxCores -> uint64 v ->
  MakeTid CoreBits (CoreId NMaxCores v) (NumId CoreBits v) (EpochId CoreBits v) = v.
Proof.
  intros Hp Hv. pose proof Hp as [Hcb _].
  apply Z.bits_inj'. intros i Hi.
  rewrite testbit_MakeTid, (testbit_CoreId CoreBits), testbit_NumId, testbit_EpochId
    by assumption.
  replace (i - CoreBits + CoreBits) with i by lia.
  replace (i - (CoreBits + 27) + (CoreBits + 27)) with i by lia.
  destruct (Z.ltb_spec i 64) as [Hin|Hout].
  - destruct (Z.testbit v i); [|cmp_cases; reflexivity].
    cmp_cases; reflexivity.
  - rewrite (uint64_testbit_high v i) by (assumption || lia).
    cmp_cases; reflexivity.
Qed.

Lemma MakeTid_sum CoreBits NMaxCores core_id num_id epoch_id :
  proto2_params CoreBits NMaxCores ->
  0 <= core_id < NMaxCores ->
  0 <= num_id < 2 ^ 27 ->
  0 <= epoch_id < 2 ^ (64 - CoreBits - 27) ->
  MakeTid CoreBits core_id num_id epoch_id
    = core_id + num_id * 2 ^ CoreBits + epoch_id * 2 ^ (CoreBits + 27).
Proof.
  intros Hp Hc Hn He. pose proof Hp as [Hcb HN].
  set (v := MakeTid CoreBits core_id num_id epoch_id).
  assert (Hv0 : 0 <= v).
  { subst v. unfold MakeTid, shl64, wrap64.
    apply Z.lor_nonneg. split; [apply Z.lor_nonneg; split; [lia|]|];
      apply Z.mod_pos_bound; lia. }
  pose proof (MakeTid_CoreId CoreBits NMaxCores core_id num_id epoch_id Hp Hc) as H1.
  pose proof (MakeTid_NumId CoreBits NMaxCores core_id num_id epoch_id Hp Hc Hn) as H2.
  pose proof (MakeTid_EpochId CoreBits NMaxCores core_id num_id epoch_id Hp Hc Hn He) as H3.
  fold v in H1, H2, H3.
  rewrite (CoreId_field CoreBits) in H1 by exact Hp.
  rewrite NumId_field in H2 by exact Hcb.
  unfold EpochId, EpochShift, NumIdShift, shr64 in H3.
  assert (H3' : Z.shiftr v (CoreBits + 27) = epoch_id).
  { rewrite <- H3. apply Z.bits_inj'. intros j Hj.
    rewrite !Z.shiftr_spec, Z.land_spec, testbit_EpochMask by lia.
    cmp_cases; simpl; rewrite ?andb_true_r; try reflexivity.
    rewrite andb_false_r.
    subst v. rewrite testbit_MakeTid by lia.
    rewrite (testbit_above core_id CoreBits) by lia.
    replace (j + (CoreBits + 27) <? 64) with false by lia. reflexivity. }
  rewrite !Z.shiftr_div_pow2 in * by lia.
  assert (P1 : 0 < 2 ^ CoreBits) by (apply Z.pow_pos_nonneg; lia).
  assert (P2 : 2 ^ (CoreBits + 27) = 2 ^ CoreBits * 2 ^ 27)
    by (apply Z.pow_add_r; lia).
  assert (Hdd : v / 2 ^ (CoreBits + 27) = v / 2 ^ CoreBits / 2 ^ 27)
    by (rewrite P2, Z.div_div; lia).
  pose proof (Z.div_mod v (2 ^ CoreBits) ltac:(lia)) as D1.
  pose proof (Z.div_mod (v / 2 ^ CoreBits) (2 ^ 27) ltac:(lia)) as D2.
  rewrite H1 in D1. rewrite H2, <- Hdd, H3' in D2.
  rewrite D1 at 1. rewrite D2. rewrite P2. ring.
Qed.

Lemma EpochId_mono CoreBits v1 v2 :
  0 <= CoreBits < 37 -> uint64 v1 -> uint64 v2 -> v1 <= v2 ->
  EpochId CoreBits v1 <= EpochId CoreBits v2.
Proof.
  intros Hcb H1 H2 Hle. rewrite !EpochId_shiftr by assumption.
  rewrite !Z.shiftr_div_pow2 by lia.
  apply Z.div_le_mono; [apply Z.pow_pos_nonneg; lia | exact Hle].
Qed.

(** X19. [EpochId] is monotone on 64-bit TIDs, so a TID of a later epoch
    is larger than every TID of an earlier one. *)
Theorem tids_of_a_later_epoch_are_larger CoreBits v1 v2 :
  0 <= CoreBits < 37 -> uint64 v1 -> uint64 v2 ->
  (v1 <= v2 -> EpochId CoreBits v1 <= EpochId CoreBits v2) /\
  (EpochId CoreBits v1 < EpochId CoreBits v2 -> v1 < v2).
Proof.
  intros Hcb H1 H2. split.
  - apply EpochId_mono; assumption.
  - intros Hlt. destruct (Z.lt_ge_cases v1 v2) as [Hok|Hge]; [exact Hok|].
    pose proof (EpochId_mono CoreBits v2 v1 Hcb H2 H1 Hge). lia.
Qed.

Lemma tids_of_a_later_epoch_are_larger_witness :
  EpochId 10 (2 ^ 37) < EpochId 10 (2 ^ 38) /\ 2 ^ 37 < 2 ^ 38.
Proof.
  assert (He : EpochId 10 (2 ^ 37) < EpochId 10 (2 ^ 38)) by (vm_compute; reflexivity).
  split; [exact He|].
  apply (tids_of_a_later_epoch_are_larger 10 (2 ^ 37) (2 ^ 38));
    [lia | unfold uint64; lia | unfold uint64; lia | exact He].
Defined.

(** X20. [can_read_tid] is always true under protocol 1. Under protocol 2
    it is true for [MakeTid(core_id, num_id, epoch_id)] exactly when
    [epoch_id <= current_epoch], and the TIDs it admits are closed
    downwards. *)
Theorem can_read_tid_spec CoreBits NMaxCores current_epoch :
  proto2_params CoreBits NMaxCores ->
  (forall t, can_read_tid CoreBits current_epoch transaction_proto1 t = true) /\
  (forall core_id num_id epoch_id,
     0 <= core_id < NMaxCores -> 0 <= num_id < 2 ^ 27 ->
     0 <= epoch_id < 2 ^ (64 - CoreBits - 27) ->
     can_read_tid CoreBits current_epoch transaction_proto2
       (MakeTid CoreBits core_id num_id epoch_id) = (epoch_id <=? current_epoch)) /\
  (forall t t', uint64 t -> uint64 t' -> t' <= t ->
     can_read_tid CoreBits current_epoch transaction_proto2 t = true ->
     can_read_tid CoreBits current_epoch transaction_proto2 t' = true).
Proof.
  intros Hp. pose proof Hp as [Hcb _]. split; [reflexivity|]. split.
  - intros c n e Hc Hn He. simpl. unfold transaction_proto2_can_read_tid.
    rewrite (MakeTid_EpochId CoreBits NMaxCores) by assumption. reflexivity.
  - intros t t' Ht Ht' Hle. simpl. unfold transaction_proto2_can_read_tid.
    pose proof (EpochId_mono CoreBits t' t Hcb Ht' Ht Hle). lia.
Qed.

Lemma can_read_tid_spec_witness :
  can_read_tid 10 6 transaction_proto2 (MakeTid 10 3 5 7) = false /\
  can_read_tid 10 7 transaction_proto2 (MakeTid 10 3 5 7) = true.
Proof.
  split.
  - apply (proj1 (proj2 (can_read_tid_spec 10 1024 6 proto2_params_10)) 3 5 7);
      simpl; lia.
  - apply (proj1 (proj2 (can_read_tid_spec 10 1024 7 proto2_params_10)) 3 5 7);
      simpl; lia.
Defined.

Lemma lex_order_sum A c1 n1 e1 c2 n2 e2 :
  0 < A -> 0 <= c1 < A -> 0 <= c2 < A ->
  0 <= n1 < 2 ^ 27 -> 0 <= n2 < 2 ^ 27 -> 0 <= e1 -> 0 <= e2 ->
  (c1 + n1 * A + e1 * (A * 2 ^ 27) < c2 + n2 * A + e2 * (A * 2 ^ 27)
   <-> e1 < e2 \/ (e1 = e2 /\ (n1 < n2 \/ (n1 = n2 /\ c1 < c2)))).
Proof.
  intros HA Hc1 Hc2 Hn1 Hn2 He1 He2.
  change (2 ^ 27) with 134217728 in *.
  set (w1 := n1 + 134217728 * e1). set (w2 := n2 + 134217728 * e2).
  replace (c1 + n1 * A + e1 * (A * 134217728)) with (c1 + A * w1) by (subst w1; ring).
  replace (c2 + n2 * A + e2 * (A * 134217728)) with (c2 + A * w2) by (subst w2; ring).
  assert (Hw : c1 + A * w1 < c2 + A * w2 <-> w1 < w2 \/ (w1 = w2 /\ c1 < c2)).
  { split.
    - intros Hlt. destruct (Z.lt_trichotomy w1 w2) as [H|[H|H]]; [auto| |].
      + right. split; [exact H|]. rewrite H in Hlt. lia.
      + exfalso. assert (A * (w2 + 1) <= A * w1)
          by (apply Z.mul_le_mono_nonneg_l; lia). lia.
    - intros [H|[H H']].
      + assert (A * (w1 + 1) <= A * w2) by (apply Z.mul_le_mono_nonneg_l; lia). lia.
      + rewrite H. lia. }
  rewrite Hw. subst w1 w2. lia.
Qed.

(** X21. [MakeTid(core_id, num_id, epoch_id)] is the number
    [core_id + num_id * 2^CoreBits + epoch_id * 2^(CoreBits + 27)]; TIDs are
    ordered by epoch first, then by num, then by core, and two TIDs are
    equal only when the three components are. *)
Theorem MakeTid_is_ordered_by_epoch_num_core
    CoreBits NMaxCores c1 n1 e1 c2 n2 e2 :
  proto2_params CoreBits NMaxCores ->
  0 <= c1 < NMaxCores -> 0 <= n1 < 2 ^ 27 -> 0 <= e1 < 2 ^ (64 - CoreBits - 27) ->
  0 <= c2 < NMaxCores -> 0 <= n2 < 2 ^ 27 -> 0 <= e2 < 2 ^ (64 - CoreBits - 27) ->
  MakeTid CoreBits c1 n1 e1 = c1 + n1 * 2 ^ CoreBits + e1 * 2 ^ (CoreBits + 27) /\
  (MakeTid CoreBits c1 n1 e1 < MakeTid CoreBits c2 n2 e2
   <-> e1 < e2 \/ (e1 = e2 /\ (n1 < n2 \/ (n1 = n2 /\ c1 < c2)))) /\
  (MakeTid CoreBits c1 n1 e1 = MakeTid CoreBits c2 n2 e2
   <-> c1 = c2 /\ n1 = n2 /\ e1 = e2).
Proof.
  intros Hp Hc1 Hn1 He1 Hc2 Hn2 He2. pose proof Hp as [Hcb HN].
  pose proof (MakeTid_sum CoreBits NMaxCores c1 n1 e1 Hp Hc1 Hn1 He1) as S1.
  pose proof (MakeTid_sum CoreBits NMaxCores c2 n2 e2 Hp Hc2 Hn2 He2) as S2.
  assert (PA : 0 < 2 ^ CoreBits) by (apply Z.pow_pos_nonneg; lia).
  assert (PB : 2 ^ (CoreBits + 27) = 2 ^ CoreBits * 2 ^ 27) by (apply Z.pow_add_r; lia).
  split; [exact S1|]. split.
  - rewrite S1, S2, PB. apply lex_order_sum; lia.
  - split.
    + intros Heq.
      pose proof (MakeTid_CoreId CoreBits NMaxCores c1 n1 e1 Hp Hc1) as A1.
      pose proof (MakeTid_NumId CoreBits NMaxCores c1 n1 e1 Hp Hc1 Hn1) as A2.
      pose proof (MakeTid_EpochId CoreBits NMaxCores c1 n1 e1 Hp Hc1 Hn1 He1) as A3.
      rewrite Heq in A1, A2, A3.
      rewrite (MakeTid_CoreId CoreBits NMaxCores) in A1 by assumption.
      rewrite (MakeTid_NumId CoreBits NMaxCores) in A2 by assumption.
      rewrite (MakeTid_EpochId CoreBits NMaxCores) in A3 by assumption.
      auto.
    + intros (-> & -> & ->). reflexivity.
Qed.

Lemma MakeTid_is_ordered_by_epoch_num_core_witness :
  MakeTid 10 1000 9 7 < MakeTid 10 3 5 8.
Proof.
  apply (proj1 (proj2 (MakeTid_is_ordered_by_epoch_num_core 10 1024 1000 9 7 3 5 8
                         proto2_params_10 ltac:(lia) ltac:(lia) ltac:(simpl; lia)
                         ltac:(lia) ltac:(lia) ltac:(simpl; lia)))).
  left. lia.
Defined.

Lemma MakeTid_of_fields_witness :
  MakeTid 10 (CoreId 1024 (2 ^ 40 + 2 ^ 12 + 5)) (NumId 10 (2 ^ 40 + 2 ^ 12 + 5))
    (EpochId 10 (2 ^ 40 + 2 ^ 12 + 5)) = 2 ^ 40 + 2 ^ 12 + 5.
Proof.
  apply (MakeTid_of_fields 10 1024 _ proto2_params_10). unfold uint64. lia.
Defined.

(** ** The order of strings *)

Lemma string_compare_trans (s1 : string) : forall s2 s3,
  String.compare s1 s2 <> Gt -> String.compare s2 s3 <> Gt ->
  String.compare s1 s3 <> Gt /\
  (String.compare s1 s2 = Lt \/ String.compare s2 s3 = Lt ->
   String.compare s1 s3 = Lt).
Proof.
  induction s1 as [|c1 s1 IH]; intros [|c2 s2] [|c3 s3]; cbn [String.compare];
    try (intros H12 H23; split; [congruence | intros [H|H]; congruence]).
  unfold Ascii.compare.
  destruct (N.compare_spec (Ascii.N_of_ascii c1) (Ascii.N_of_ascii c2)) as [E12|L12|G12];
    destruct (N.compare_spec (Ascii.N_of_ascii c2) (Ascii.N_of_ascii c3)) as [E23|L23|G23];
    destruct (N.compare_spec (Ascii.N_of_ascii c1) (Ascii.N_of_ascii c3)) as [E13|L13|G13];
    intros H12 H23; try congruence; try lia;
    try (split; [congruence | intros _; reflexivity]);
    try (split; [congruence | intros [H|H]; congruence]).
  apply IH; assumption.
Qed.

Lemma string_le_trans s1 s2 s3 :
  key_range.string_le s1 s2 = true -> key_range.string_le s2 s3 = true ->
  key_range.string_le s1 s3 = true.
Proof.
  unfold key_range.string_le, String.leb. intros H12 H23.
  destruct (string_compare_trans s1 s2 s3) as [H _].
  - destruct (String.compare s1 s2); congruence.
  - destruct (String.compare s2 s3); congruence.
  - destruct (String.compare s1 s3); congruence.
Qed.

Lemma string_lt_le_trans s1 s2 s3 :
  key_range.string_lt s1 s2 = true -> key_range.string_le s2 s3 = true ->
  key_range.string_lt s1 s3 = true.
Proof.
  unfold key_range.string_lt, key_range.string_le, String.ltb, String.leb.
  intros H12 H23.
  destruct (string_compare_trans s1 s2 s3) as [_ H].
  - destruct (String.compare s1 s2); congruence.
  - destruct (String.compare s2 s3); congruence.
  - rewrite H; [reflexivity|]. left. destruct (String.compare s1 s2); congruence.
Qed.

Lemma contains_iff (R S : key_range.key_range_t) :
  key_range.contains R S = true <->
  key_range.string_le (key_range.a R) (key_range.a S) = true /\
  (key_range.has_b R = false \/
   (key_range.has_b S = true /\
    key_range.string_le (key_range.b S) (key_range.b R) = true)).
Proof.
  unfold key_range.contains, key_range.string_ge. rewrite string_gt_le.
  destruct (key_range.string_le (key_range.a R) (key_range.a S)),
    (key_range.has_b R), (key_range.has_b S),
    (key_range.string_le (key_range.b S) (key_range.b R));
    simpl; intuition discriminate.
Qed.

(** X22. [contains] is reflexive and transitive. *)
Theorem contains_is_a_preorder (R S T : key_range.key_range_t) :
  key_range.contains R R = true /\
  (key_range.contains R S = true -> key_range.contains S T = true ->
   key_range.contains R T = true).
Proof.
  split.
  - apply contains_iff. split; [apply string_le_refl|].
    destruct (key_range.has_b R); [right | left; reflexivity].
    split; [reflexivity | apply string_le_refl].
  - rewrite !contains_iff. intros [Ha1 Hb1] [Ha2 Hb2].
    split; [eapply string_le_trans; eassumption|].
    destruct Hb1 as [Hb1|[Hs Hb1]]; [left; exact Hb1|].
    destruct Hb2 as [Hb2|[Ht Hb2]]; [congruence|].
    right. split; [exact Ht|]. eapply string_le_trans; eassumption.
Qed.

Lemma contains_is_a_preorder_witness :
  key_range.contains (key_range.key_range_from "a"%string)
    (key_range.key_range_between "c"%string "d"%string) = true.
Proof.
  apply (proj2 (contains_is_a_preorder
                  (key_range.key_range_from "a"%string)
                  (key_range.key_range_between "b"%string "e"%string)
                  (key_range.key_range_between "c"%string "d"%string)));
    reflexivity.
Defined.

Section ContainsAndMembership.

Variable varkey : Type.
Variable varkey_of : string -> varkey.
Variable varkey_le : varkey -> varkey -> bool.
Variable varkey_lt : varkey -> varkey -> bool.

(** The order of [varkey] is transitive and extends the order of the
    strings the keys are built from. *)
Hypothesis varkey_le_trans : forall x y z,
  varkey_le x y = true -> varkey_le y z = true -> varkey_le x z = true.
Hypothesis varkey_lt_le_trans : forall x y z,
  varkey_lt x y = true -> varkey_le y z = true -> varkey_lt x z = true.
Hypothesis varkey_of_mono : forall s1 s2,
  key_range.string_le s1 s2 = true -> varkey_le (varkey_of s1) (varkey_of s2) = true.

(** X23. [contains] is sound for membership: when [R.contains(S)], every
    key in the range [S] is in the range [R] (for an order on [varkey] that
    is transitive and extends the order of the strings). *)
Theorem contains_is_sound_for_keys (R S : key_range.key_range_t) (k : varkey) :
  key_range.contains R S = true ->
  key_range.key_in_range varkey varkey_of varkey_le varkey_lt S k = true ->
  key_range.key_in_range varkey varkey_of varkey_le varkey_lt R k = true.
Proof.
  rewrite contains_iff. unfold key_range.key_in_range.
  intros [Ha Hb] Hk. apply andb_prop in Hk as [Hlo Hhi].
  apply andb_true_intro. split.
  - eapply varkey_le_trans; [apply varkey_of_mono; exact Ha | exact Hlo].
  - destruct Hb as [->|[Hs Hb]]; [reflexivity|].
    rewrite Hs in Hhi. simpl in Hhi.
    apply orb_true_intro. right.
    eapply varkey_lt_le_trans; [exact Hhi | apply varkey_of_mono; exact Hb].
Qed.

End ContainsAndMembership.

Lemma contains_is_sound_for_keys_witness :
  key_range.key_in_range string id String.leb String.ltb
    (key_range.key_range_between "a"%string "e"%string) "c"%string = true.
Proof.
  apply (contains_is_sound_for_keys string id String.leb String.ltb
           string_le_trans string_lt_le_trans (fun s1 s2 H => H)
           (key_range.key_range_between "a"%string "e"%string)
           (key_range.key_range_between "b"%string "d"%string) "c"%string);
    reflexivity.
Defined.

(** ** More on the state machine *)

(** X24. [ensure_active] never changes [flags] or [reason] and never
    leaves a transaction in state Embryo; it returns exactly when the
    transaction is not resolved, and then the state is Active; when it
    throws the object is unchanged; and a second call changes nothing and
    ends as the first one did. *)
Theorem ensure_active_is_idempotent this this' o :
  ensure_active this = (this', o) ->
  flags this' = flags this /\ reason this' = reason this /\
  (o = Returns tt <-> state this' = TXN_ACTIVE) /\
  (o = Returns tt <-> ~ resolved (state this)) /\
  (o <> Returns tt -> this' = this) /\
  state this' <> TXN_EMBRYO /\
  ensure_active this' = (this', o).
Proof.
  rewrite ensure_active_cases. unfold resolved.
  destruct this as [st rsn fl]. cbn [state].
  destruct st; intros [= <- <-]; cbn;
    intuition (try congruence; try discriminate).
Qed.

Lemma ensure_active_is_idempotent_witness :
  ensure_active (mk_txn TXN_ACTIVE ABORT_REASON_USER 2)
    = (mk_txn TXN_ACTIVE ABORT_REASON_USER 2, Returns tt).
Proof.
  exact (proj2 (proj2 (proj2 (proj2 (proj2 (proj2
    (ensure_active_is_idempotent (mk_txn TXN_EMBRYO ABORT_REASON_USER 2)
       (mk_txn TXN_ACTIVE ABORT_REASON_USER 2) (Returns tt) eq_refl))))))).
Defined.

(** ** Abort reasons *)

(** X25. [AbortReasonStr] gives different names to different abort
    reasons. *)
Theorem AbortReasonStr_is_injective r1 r2 :
  AbortReasonStr r1 = AbortReasonStr r2 -> r1 = r2.
Proof. destruct r1, r2; simpl; intros H; try reflexivity; discriminate H. Qed.

Lemma AbortReasonStr_is_injective_witness :
  AbortReasonStr ABORT_REASON_USER <> AbortReasonStr ABORT_REASON_UNSTABLE_READ.
Proof.
  intros H.
  pose proof (AbortReasonStr_is_injective _ _ H) as Heq. discriminate Heq.
Defined.

(** ** The header as a record of five fields *)

(** X4. Two 64-bit headers are equal exactly when [IsLocked],
    [IsDeleting], [IsEnqueued], [IsLatest] and [Version] agree on them: the
    five accessors lose nothing of the word. *)
Theorem header_is_determined_by_its_fields v1 v2 :
  uint64 v1 -> uint64 v2 ->
  (v1 = v2 <->
   IsLocked v1 = IsLocked v2 /\ IsDeleting v1 = IsDeleting v2 /\
   IsEnqueued v1 = IsEnqueued v2 /\ IsLatest v1 = IsLatest v2 /\
   Version v1 = Version v2).
Proof.
  intros H1 H2. split.
  - intros ->. repeat split.
  - intros (Hl & Hd & He & Hla & Hv). apply header_fields_inj; assumption.
Qed.

Lemma header_is_determined_by_its_fields_witness :
  Version 9 <> Version 25.
Proof.
  intros Hv.
  assert (H : 9 = 25).
  { apply (header_is_determined_by_its_fields 9 25); [unfold uint64; lia ..|].
    repeat split; try reflexivity. exact Hv. }
  discriminate H.
Defined.
